(** * p2: key paths, the preparer's status tracker and the replication-controller store

    A shallow embedding of
    - [pkg/kp/constants.go]: the functions that build consul key paths;
    - the preparer's [main] package: the error tracker behind [/_status]
      and the shutdown sequence;
    - the mini-orchestrator's [main] package: the checks it runs against an
      [rcstore.Store]. *)

From Stdlib Require Import ZArith Ascii String DecimalString.
From stdpp Require Import base tactics option list sorting strings pretty gmap.

Local Open Scope Z_scope.

(** ** Go's [path] package

    [nodePath], [podPath] and [PodLockPath] build every key with
    [path.Join], which joins its non-empty arguments with a slash and then
    runs [path.Clean] over the result.  [Clean] is transcribed from the Go
    standard library: [rest] is the unread part [path[r:]], [out] is the
    written part of the buffer (so [out.w] is its length) and [dotdot] is the
    index where a [..] element has to stop backtracking. *)
Module path.

Definition slash : ascii := "/"%char.
Definition dot : ascii := "."%char.

Definition append_byte (out : string) (c : ascii) : string :=
  out +:+ String c "".

(** [r == n || path[r] == '/'] for the unread part starting at [r]. *)
Definition at_sep (rest : string) : bool :=
  match rest with
  | EmptyString => true
  | String c _ => Ascii.eqb c slash
  end.

(** The loop [for out.w > dotdot && out.index(out.w) != '/' { out.w-- }]. *)
Fixpoint backtrack_w (buf : string) (dotdot w : nat) : nat :=
  match w with
  | O => O
  | S w' =>
      if (dotdot <? w)%nat
         && negb (bool_decide (String.get w buf = Some slash))
      then backtrack_w buf dotdot w'
      else w
  end.

(** [out.w--] followed by the loop above; the buffer keeps its first
    [out.w] bytes. *)
Definition backtrack (out : string) (dotdot : nat) : string :=
  String.substring 0 (backtrack_w out dotdot (String.length out - 1)) out.

(** [for ; r < n && path[r] != '/'; r++ { out.append(path[r]) }] *)
Fixpoint copy_elem (rest out : string) : string * string :=
  match rest with
  | EmptyString => (out, EmptyString)
  | String c t =>
      if Ascii.eqb c slash then (out, rest)
      else copy_elem t (append_byte out c)
  end.

(** [path[r+1] == '.' && (r+2 == n || path[r+2] == '/')], with [t] the unread
    part starting at [r+1]; the test is reached only when [r+1 < n]. *)
Definition dot_then_sep (t : string) : bool :=
  match t with
  | String c' t' => Ascii.eqb c' dot && at_sep t'
  | EmptyString => false
  end.

(** The unread part after [r++]. *)
Definition skip_byte (t : string) : string :=
  match t with
  | String _ t' => t'
  | EmptyString => EmptyString
  end.

(** The main loop [for r < n { switch { ... } }].  Every iteration reads at
    least one byte, so [String.length rest] iterations are enough. *)
Fixpoint clean_loop (fuel : nat) (rooted : bool) (rest out : string)
    (dotdot : nat) : string :=
  match fuel with
  | O => out
  | S fuel' =>
      match rest with
      | EmptyString => out
      | String c t =>
          if Ascii.eqb c slash then
            (* empty path element *)
            clean_loop fuel' rooted t out dotdot
          else if Ascii.eqb c dot && at_sep t then
            (* . element *)
            clean_loop fuel' rooted t out dotdot
          else if Ascii.eqb c dot && dot_then_sep t then
            (* .. element: remove to last / *)
            if (dotdot <? String.length out)%nat then
              (* can backtrack *)
              clean_loop fuel' rooted (skip_byte t) (backtrack out dotdot) dotdot
            else if negb rooted then
              (* cannot backtrack, but not rooted, so append .. element *)
              let out1 :=
                if (0 <? String.length out)%nat then append_byte out slash
                else out in
              let out2 := append_byte (append_byte out1 dot) dot in
              clean_loop fuel' rooted (skip_byte t) out2 (String.length out2)
            else
              clean_loop fuel' rooted (skip_byte t) out dotdot
          else
            (* real path element: add slash if needed, copy element *)
            let w := String.length out in
            let out1 :=
              if (rooted && negb (w =? 1)%nat) || (negb rooted && negb (w =? 0)%nat)
              then append_byte out slash else out in
            let '(out2, rest') := copy_elem rest out1 in
            clean_loop fuel' rooted rest' out2 dotdot
      end
  end.

Definition Clean (path : string) : string :=
  match path with
  | EmptyString => "."
  | String c t =>
      let rooted := Ascii.eqb c slash in
      let out :=
        if rooted then clean_loop (String.length path) rooted t "/" 1
        else clean_loop (String.length path) rooted path "" 0 in
      (* Turn empty string into "." *)
      match out with
      | EmptyString => "."
      | _ => out
      end
  end.

(** [strings.Join(elem, "/")] *)
Fixpoint join_slash (elem : list string) : string :=
  match elem with
  | [] => ""
  | [e] => e
  | e :: t => e +:+ "/" +:+ join_slash t
  end.

(** [Join]: leading empty elements are skipped; the rest is joined with
    slashes and cleaned; all elements empty gives the empty string. *)
Fixpoint Join (elem : list string) : string :=
  match elem with
  | [] => ""
  | e :: t =>
      if bool_decide (e = "") then Join t else Clean (join_slash elem)
  end.

End path.

(** ** [pkg/kp/constants.go] *)

(** A Go [error]; [util.Errorf] builds one from its message. *)
Inductive error : Set := Errorf (msg : string).

Global Instance error_eq_dec : EqDecision error.
Proof. solve_decision. Defined.

Module kp.

(** [PodPrefix] and [types.PodID] are named string types. *)
Definition PodPrefix : Set := string.
Definition PodID : Set := string.

Definition INTENT_TREE : PodPrefix := "intent".
Definition REALITY_TREE : PodPrefix := "reality".
Definition HOOK_TREE : PodPrefix := "hooks".
Definition LOCK_TREE : string := "lock".

Definition err_no_node : error :=
  Errorf "nodeName not specified when computing host path".
Definition err_no_pod : error :=
  Errorf "pod id not specified when computing pod path".

(** The functions return Go's pair [(string, error)]; a [nil] error is
    [None]. *)
Definition nodePath (podPrefix : PodPrefix) (nodeName : string)
    : string * option error :=
  if bool_decide (podPrefix = HOOK_TREE) then
    (path.Join [podPrefix; ""], None)
  else if bool_decide (nodeName = "") then
    ("", Some err_no_node)
  else
    (path.Join [podPrefix; nodeName], None).

Definition podPath (podPrefix : PodPrefix) (nodeName : string) (podId : PodID)
    : string * option error :=
  match nodePath podPrefix nodeName with
  | (_, Some err) => ("", Some err)
  | (nodePath, None) =>
      if bool_decide (podId = "") then ("", Some err_no_pod)
      else (path.Join [nodePath; podId], None)
  end.

Definition PodLockPath (podPrefix : PodPrefix) (nodeName : string)
    (podId : PodID) : string * option error :=
  match podPath podPrefix nodeName podId with
  | (_, Some err) => ("", Some err)
  | (subPodPath, None) => (path.Join [LOCK_TREE; subPodPath], None)
  end.

End kp.

(** ** Plain path elements

    An element is plain when [Clean] copies it as it is: it is not empty, has
    no slash and is neither [.] nor [..].  Host names and pod ids are plain. *)

Fixpoint has_slash (s : string) : bool :=
  match s with
  | EmptyString => false
  | String c t => Ascii.eqb c path.slash || has_slash t
  end.

Definition plain (e : string) : bool :=
  negb (has_slash e)
  && negb (bool_decide (e = "")) && negb (bool_decide (e = "."))
  && negb (bool_decide (e = "..")).

(** The tail of a joined path: every element with a slash before it. *)
Fixpoint rest_of (es : list string) : string :=
  match es with
  | [] => ""
  | e :: t => "/" +:+ e +:+ rest_of t
  end.

(** A plain path is a non-empty sequence of plain elements joined with
    slashes, such as [intent/web01.example.com/mypod]. *)
Definition plain_path (s : string) : Prop :=
  ∃ es : list string,
    es ≠ [] ∧ Forall (λ e, plain e = true) es ∧ s = path.join_slash es.

(** ** What [Clean] computes, element by element

    For a path that does not start with a slash, [Clean] keeps two things as
    it reads the elements: how many [..] elements lead the result so far,
    and the plain elements after them.  [stack] has the latest element
    first. *)
Record cstate : Set := { ups : nat; stack : list string }.

Definition cstate_init : cstate := {| ups := 0; stack := [] |}.

(** A [..] element drops the latest plain element, or leads the result
    when there is none to drop. *)
Definition up (st : cstate) : cstate :=
  match stack st with
  | [] => {| ups := S (ups st); stack := [] |}
  | _ :: below => {| ups := ups st; stack := below |}
  end.

Definition norm_step (st : cstate) (e : string) : cstate :=
  if bool_decide (e = "") then st
  else if bool_decide (e = ".") then st
  else if bool_decide (e = "..") then up st
  else {| ups := ups st; stack := e :: stack st |}.

Definition norm (es : list string) (st : cstate) : cstate :=
  fold_left norm_step es st.

(** The elements of the result, in order. *)
Definition canon (st : cstate) : list string :=
  replicate (ups st) ".." ++ reverse (stack st).

(** The elements of a path: what stands between its slashes. *)
Fixpoint elements (s : string) : list string :=
  match s with
  | EmptyString => [""]
  | String c t =>
      if Ascii.eqb c path.slash then "" :: elements t
      else match elements t with
           | e :: es => String c e :: es
           | [] => [String c ""]
           end
  end.

(** What the elements that led to [c] do to another state [st]: go up
    [ups c] times, then add the plain elements of [c]. *)
Definition act (c st : cstate) : cstate :=
  {| ups := ups (Nat.iter (ups c) up st);
     stack := stack c ++ stack (Nat.iter (ups c) up st) |}.

(** A path that is not empty and does not start with a slash. *)
Definition unrooted (s : string) : bool :=
  match s with
  | EmptyString => false
  | String c _ => negb (Ascii.eqb c path.slash)
  end.

(** The elements kept are plain ones. *)
Definition plain_stack (st : cstate) : Prop :=
  Forall (λ e, plain e = true) (stack st).

(** The buffer of [Clean] for a state, and its [dotdot] index. *)
Definition buf (st : cstate) : string := path.join_slash (canon st).

Definition dotdot_of (st : cstate) : nat :=
  String.length (path.join_slash (replicate (ups st) "..")).

(** The result of [Clean] for a state. *)
Definition render (st : cstate) : string :=
  match buf st with
  | EmptyString => "."
  | out => out
  end.

(** ** The preparer's [main] package: status tracking and shutdown *)
Module preparer_main.

(** Go's [int] on the 64-bit targets the preparer is built for: a result is
    reduced into [-2^63, 2^63) by two's-complement wrap-around. *)
Definition int_min : Z := - 2 ^ 63.
Definition int_max : Z := 2 ^ 63 - 1.
Definition int_wrap (z : Z) : Z := (z - int_min) mod 2 ^ 64 + int_min.

(** What [watchForErrors] receives: a value from [errs] (a Go [error], which
    may be [nil]) or a token from [successes]. *)
Inductive event : Set :=
| ErrEvent (err : option error)
| SuccessEvent.

(** The two variables a watcher owns through [consecutive] and [lastError]. *)
Record tracker : Set := Tracker {
  consecutive : Z;
  lastError : option error
}.

(** [consecutiveMainErrors := 0] and [var lastMainError error]. *)
Definition tracker_init : tracker :=
  {| consecutive := 0; lastError := None |}.

(** One turn of the [select] in [watchForErrors]. *)
Definition watchForErrors_step (st : tracker) (ev : event) : tracker :=
  match ev with
  | ErrEvent err =>
      {| consecutive := int_wrap (consecutive st + 1); lastError := err |}
  | SuccessEvent =>
      {| consecutive := 0; lastError := lastError st |}
  end.

(** The [for] loop of [watchForErrors] over the events received so far. *)
Definition watchForErrors (evs : list event) (st : tracker) : tracker :=
  fold_left watchForErrors_step evs st.

(** The value most recently received from [errs] in [evs], or [prev] when
    [evs] has no error event. *)
Fixpoint latest_error (evs : list event) (prev : option error) : option error :=
  match evs with
  | [] => prev
  | ErrEvent err :: evs' => latest_error evs' err
  | SuccessEvent :: evs' => latest_error evs' prev
  end.

(** [fmt.Sprintf("%+v", err)] for an [error]: the message, or [<nil>]. *)
Definition Sprintf_v (err : option error) : string :=
  match err with
  | None => "<nil>"
  | Some (Errorf msg) => msg
  end.

Record StatusResponse : Set := {
  Status : string;
  ConsecutiveHookErrors : Z;
  ConsecutivePodErrors : Z;
  LastHookError : string;
  LastPodError : string
}.

Record Request : Set := { Method : string; URL : string }.

(** What the handler writes: the status code and the body. *)
Record Response : Set := { StatusCode : Z; Body : string }.

Definition StatusOK : Z := 200.
Definition StatusInternalServerError : Z := 500.

Definition dquote : string := String "034"%char "".
Definition newline : string := String "010"%char "".

Section status.

(** [encoding/json]'s encoder for a Go string, quotes included. *)
Variable json_string : string → string.

Definition json_field (name value : string) : string :=
  dquote +:+ name +:+ dquote +:+ ":" +:+ value.

(** [json.Marshal] on a [StatusResponse]: the fields in declaration order
    under their [json] tags; strings and ints never fail to encode. *)
Definition json_Marshal (v : StatusResponse) : string * option error :=
  ("{" +:+ json_field "status" (json_string (Status v))
   +:+ "," +:+ json_field "consecutive_hook_errors" (pretty (ConsecutiveHookErrors v))
   +:+ "," +:+ json_field "consecutive_pod_errors" (pretty (ConsecutivePodErrors v))
   +:+ "," +:+ json_field "last_hook_error" (json_string (LastHookError v))
   +:+ "," +:+ json_field "last_pod_error" (json_string (LastPodError v))
   +:+ "}", None).

(** The struct the handler fills in, from the variables captured by the
    closure. *)
Definition statusResponse (main hook : tracker) : StatusResponse :=
  let status := "OK" in
  {| Status := status;
     ConsecutiveHookErrors := consecutive hook;
     ConsecutivePodErrors := consecutive main;
     LastHookError := Sprintf_v (lastError hook);
     LastPodError := Sprintf_v (lastError main) |}.

(** The closure returned by [statusHandler], run on the current value of the
    captured variables. *)
Definition statusHandler (main hook : tracker) (r : Request) : Response :=
  match json_Marshal (statusResponse main hook) with
  | (_, Some err) =>
      {| StatusCode := StatusInternalServerError;
         Body := "{status:" +:+ dquote +:+ "Unknown (couldn't marshal: "
                 +:+ Sprintf_v (Some err) +:+ ")" +:+ dquote +:+ "}"
                 +:+ newline |}
  | (response, None) =>
      {| StatusCode := StatusOK; Body := response +:+ newline |}
  end.

End status.

Definition backslash : string := String "092"%char "".

(** The encoder on printable ASCII text, for worked values: quote and
    backslash get a backslash before them, the angle brackets and the
    ampersand become a [u00XX] escape, every other byte is copied. *)
Fixpoint json_escape_ascii (s : string) : string :=
  match s with
  | EmptyString => ""
  | String c t =>
      (if Ascii.eqb c "034"%char then backslash +:+ dquote
       else if Ascii.eqb c "092"%char then backslash +:+ backslash
       else if Ascii.eqb c "<"%char then backslash +:+ "u003c"
       else if Ascii.eqb c ">"%char then backslash +:+ "u003e"
       else if Ascii.eqb c "&"%char then backslash +:+ "u0026"
       else String c "") +:+ json_escape_ascii t
  end.

Definition quoted (s : string) : string := dquote +:+ s +:+ dquote.

Definition json_string_ascii (s : string) : string :=
  quoted (json_escape_ascii s).

(** *** Shutdown *)

Inductive Signal : Set := SIGTERM | Interrupt.

Inductive Chan : Set := signalCh | quitMainUpdate | quitHookUpdate.

Global Instance Chan_eq_dec : EqDecision Chan.
Proof. solve_decision. Defined.

(** The blocking operations of the main goroutine, in program order.  The
    quit channels are unbuffered: a send returns once the watch loop has
    taken the value. *)
Inductive action : Set :=
| Notify (c : Chan) (sigs : list Signal)
| Recv (c : Chan)
| Send (c : Chan)
| Log (msg : string)
| Close
| Return.

Global Instance Signal_eq_dec : EqDecision Signal.
Proof. solve_decision. Defined.

Global Instance action_eq_dec : EqDecision action.
Proof. solve_decision. Defined.

(** [waitForTermination], given the signal [received] from [signalCh]. *)
Definition waitForTermination (received : Signal) : list action :=
  [ Notify signalCh [SIGTERM; Interrupt];
    Recv signalCh;
    Log "Stopping work";
    Send quitHookUpdate;
    Send quitMainUpdate;
    Recv quitMainUpdate (* acknowledgement *) ].

(** The end of [main]: wait, log, and return through the deferred
    [prep.Close()], which ends the process. *)
Definition main_shutdown (received : Signal) : list action :=
  waitForTermination received ++ [Log "Terminating"; Close; Return].

(** [tr] sends on [c] and later receives on [c]. *)
Definition sends_then_awaits (c : Chan) (tr : list action) : Prop :=
  ∃ l1 l2 l3, tr = l1 ++ Send c :: l2 ++ Recv c :: l3.

End preparer_main.

(** ** Replication-controller records and their store

    [pkg/rc/fields] and [pkg/kp/rcstore] are used by the mini-orchestrator
    but are not among the sources; records and store follow the
    specification's data model and its contracts for the RC Store. *)
Module rcstore.

(** Modelled from the spec: [pods.Manifest], "immutable workload spec with a
    content hash"; only its identity and digest are observed here. *)
Record pods_Manifest : Set := {
  Manifest_ID : string;
  Manifest_SHA : string
}.

(** Modelled from the spec: [labels.Selector], a "label-selector expression",
    known by its string form. *)
Record labels_Selector : Set := { Selector_String : string }.

(** Modelled from the spec: the RC record [fields.RC], "ID (opaque unique
    string), Manifest, NodeSelector, PodLabels (mapping string→string),
    Disabled (bool), ReplicasDesired (non-negative integer)". *)
Record RC : Type := {
  ID : string;
  Manifest : pods_Manifest;
  NodeSelector : labels_Selector;
  PodLabels : gmap string string;
  Disabled : bool;
  ReplicasDesired : N
}.

(** Modelled from the spec: the error taxonomy of the RC Store. *)
Inductive store_error : Set := NotFound | Conflict | Validation | StoreError.

Global Instance store_error_eq_dec : EqDecision store_error.
Proof. solve_decision. Defined.

Inductive result (A : Type) : Type :=
| Ok (a : A)
| Failed (e : store_error).
Global Arguments Ok {A} a.
Global Arguments Failed {A} e.

(** Modelled from the spec: the persisted records by ID, together with the
    IDs handed out so far ("ID is assigned at creation"; a fresh one is
    allocated by every [Create]).  The store is taken to be reachable:
    transient failures and their retries are not part of the model. *)
Record Store : Type := {
  rcs : gmap string RC;
  issued : gset string
}.

Definition NewFake : Store := {| rcs := ∅; issued := ∅ |}.

(** Modelled from the spec: "Create(manifest, nodeSelector, podLabels) -> RC
    record: allocates a fresh unique ID, persists a record with
    ReplicasDesired=0, Disabled=false." *)
Definition Create (s : Store) (manifest : pods_Manifest)
    (nodeSelector : labels_Selector) (podLabels : gmap string string)
    : Store * (RC * option store_error) :=
  let id := fresh (dom (rcs s) ∪ issued s) in
  let rc := {| ID := id; Manifest := manifest; NodeSelector := nodeSelector;
               PodLabels := podLabels; Disabled := false;
               ReplicasDesired := 0 |} in
  ({| rcs := <[id := rc]> (rcs s); issued := {[id]} ∪ issued s |},
   (rc, None)).

(** Modelled from the spec: "Get(id) -> RC record: fails with a not-found
    error if id does not exist." *)
Definition Get (s : Store) (id : string) : result RC :=
  match rcs s !! id with
  | Some rc => Ok rc
  | None => Failed NotFound
  end.

(** Modelled from the spec: "List() -> set of RC records: returns every
    currently persisted record; order is not guaranteed." *)
Definition List (s : Store) : result (list RC) :=
  Ok (snd <$> map_to_list (rcs s)).

Definition set_replicas (n : N) (rc : RC) : RC :=
  {| ID := ID rc; Manifest := Manifest rc; NodeSelector := NodeSelector rc;
     PodLabels := PodLabels rc; Disabled := Disabled rc;
     ReplicasDesired := n |}.

Definition set_disabled (rc : RC) : RC :=
  {| ID := ID rc; Manifest := Manifest rc; NodeSelector := NodeSelector rc;
     PodLabels := PodLabels rc; Disabled := true;
     ReplicasDesired := ReplicasDesired rc |}.

(** Modelled from the spec: "SetDesiredReplicas(id, n): fails with not-found
    if id does not exist; n must be ≥ 0; on success updates
    ReplicasDesired".  [n] ranges over the counts the contract admits. *)
Definition SetDesiredReplicas (s : Store) (id : string) (n : N)
    : Store * option store_error :=
  match rcs s !! id with
  | None => (s, Some NotFound)
  | Some rc =>
      ({| rcs := <[id := set_replicas n rc]> (rcs s); issued := issued s |},
       None)
  end.

(** Modelled from the spec: "Disable(id): fails with not-found if id does
    not exist; sets Disabled=true; idempotent." *)
Definition Disable (s : Store) (id : string) : Store * option store_error :=
  match rcs s !! id with
  | None => (s, Some NotFound)
  | Some rc =>
      ({| rcs := <[id := set_disabled rc]> (rcs s); issued := issued s |},
       None)
  end.

(** Modelled from the spec: "Delete(id): fails with not-found if id does not
    exist; fails with a conflict error if ReplicasDesired > 0; otherwise
    removes the record permanently." *)
Definition Delete (s : Store) (id : string) : Store * option store_error :=
  match rcs s !! id with
  | None => (s, Some NotFound)
  | Some rc =>
      if (0 <? ReplicasDesired rc)%N then (s, Some Conflict)
      else ({| rcs := delete id (rcs s); issued := issued s |}, None)
  end.

End rcstore.

(** ** The mini-orchestrator's [main] package *)
Module orchestrator.

Import rcstore.

(** [labels.Set.String()]: the [key=value] pairs, sorted, joined by commas. *)
Definition Set_String (ls : gmap string string) : string :=
  String.concat ","
    (merge_sort String.le ((λ kv, kv.1 +:+ "=" +:+ kv.2) <$> map_to_list ls)).

(** [tryMatch]; the line it logs on a mismatch is not kept. *)
Definition tryMatch (a b desc : string) : Z :=
  if bool_decide (a = b) then 0 else 1.

Definition checkFieldsSame (a b : RC) : Z :=
  let mismatches := 0 in
  let mismatches := mismatches + tryMatch (ID a) (ID b) "RC ID" in
  let mismatches :=
    mismatches
    + tryMatch (Manifest_ID (Manifest a)) (Manifest_ID (Manifest b))
        "Manifest ID" in
  let mismatches :=
    mismatches
    + tryMatch (Selector_String (NodeSelector a))
        (Selector_String (NodeSelector b)) "Node Selector" in
  let mismatches :=
    mismatches
    + tryMatch (Set_String (PodLabels a)) (Set_String (PodLabels b))
        "Node Selector" in
  let mismatches :=
    if bool_decide (Disabled a ≠ Disabled b) then mismatches + 1
    else mismatches in
  let mismatches :=
    if bool_decide (ReplicasDesired a ≠ ReplicasDesired b) then mismatches + 1
    else mismatches in
  mismatches.

(** A run against a store either goes on or stops in [log.Fatalf]. *)
Inductive outcome (A : Type) : Type :=
| Done (a : A)
| Fatal (msg : string).
Global Arguments Done {A} a.
Global Arguments Fatal {A} msg.

Definition M (A : Type) : Type := Store → Store * outcome A.

Global Instance M_ret : MRet M := λ A a s, (s, Done a).
Global Instance M_bind : MBind M := λ A B f m s,
  match m s with
  | (s', Done a) => f a s'
  | (s', Fatal msg) => (s', Fatal msg)
  end.

Definition Fatalf {A : Type} (msg : string) : M A := λ s, (s, Fatal msg).

(** A call of a store method that can change the store. *)
Definition call {A : Type} (op : Store → Store * A) : M A :=
  λ s, let '(s', a) := op s in (s', Done a).

(** A call of a store method that only reads. *)
Definition query {A : Type} (op : Store → A) : M A := λ s, (s, Done (op s)).

Definition BOGUS : string := "BOGUSBOGUS".

(** The body of the loop over [stores] in [makeRcFields], for one store. *)
Definition makeRcFields_store (manifest : pods_Manifest)
    (nodeSelector : labels_Selector) (podLabels : gmap string string) : M RC :=
  err ← call (λ s, SetDesiredReplicas s BOGUS 1);
  if err is None then Fatalf "Should have errored setting a nonexistent ID" else
  err ← call (λ s, Disable s BOGUS);
  if err is None then Fatalf "Should have errored disabling a nonexistent ID" else
  err ← call (λ s, Delete s BOGUS);
  if err is None then Fatalf "Should have errored deleting a nonexistent ID" else
  created ← call (λ s, Create s manifest nodeSelector podLabels);
  let '(fields, err) := created in
  if err is Some _ then
    Fatalf "Couldn't create to-be-deleted replication controller in store"
  else
  (* Just kidding, immediately delete. *)
  err ← call (λ s, Delete s (ID fields));
  if err is Some _ then
    Fatalf "Couldn't delete replication controller in store"
  else
  created ← call (λ s, Create s manifest nodeSelector podLabels);
  let '(fields, err) := created in
  if err is Some _ then
    Fatalf "Couldn't create to-be-returned replication controller in store"
  else
  (* If I get the manifest, It should give me the same results. *)
  got ← query (λ s, Get s (ID fields));
  match got with
  | Failed _ => Fatalf "Couldn't get replication controller in store"
  | Ok check =>
      let mismatches := checkFieldsSame fields check in
      if bool_decide (mismatches = 0) then
        listed ← query List;
        match listed with
        | Failed _ => Fatalf "Couldn't list in store"
        | Ok listeds =>
            let found :=
              existsb (λ listed, bool_decide (ID listed = ID fields)) listeds in
            if negb found then
              Fatalf "List of store didn't list the just-created RC!"
            else mret fields
        end
      else Fatalf "Mismatch of controller in store"
  end.

(** The end of [main], from "Complete. Let's disable that RC." to the last
    [Delete], on the record [id]. *)
Definition main_teardown (id : string) : M unit :=
  err ← call (λ s, Disable s id);
  if err is Some _ then Fatalf "Couldn't disable" else
  (* Let's try to delete an RC with a desired count. *)
  err ← call (λ s, Delete s id);
  if err is None then Fatalf "Delete succeeded, should have errored!" else
  (* OK, what if we set the desired replicas to 0? *)
  err ← call (λ s, SetDesiredReplicas s id 0);
  if err is Some _ then Fatalf "Couldn't set desired to 0" else
  (* Deleting now should succeed. *)
  err ← call (λ s, Delete s id);
  if err is Some _ then Fatalf "Couldn't delete" else
  mret ().

End orchestrator.

(** ** The mini-orchestrator against any [rcstore.Store]

    [makeRcFields] and [main] only use the methods of the [rcstore.Store]
    interface.  Here a store is any state type with those methods; every
    call may change the state and returns what the Go method returns. *)
Module orchestrator_any.

Import rcstore orchestrator.

Record StoreOps (S : Type) : Type := {
  store_Create :
    S → pods_Manifest → labels_Selector → gmap string string
    → S * (RC * option error);
  store_Get : S → string → S * (RC * option error);
  store_List : S → S * (list RC * option error);
  store_SetDesiredReplicas : S → string → Z → S * option error;
  store_Disable : S → string → S * option error;
  store_Delete : S → string → S * option error
}.
Global Arguments store_Create {S} _ _ _ _ _.
Global Arguments store_Get {S} _ _ _.
Global Arguments store_List {S} _ _.
Global Arguments store_SetDesiredReplicas {S} _ _ _ _.
Global Arguments store_Disable {S} _ _ _.
Global Arguments store_Delete {S} _ _ _.

(** A run against a store of type [S]: it goes on or stops in
    [log.Fatalf]. *)
Definition run (S A : Type) : Type := S → S * outcome A.

#[local] Instance run_ret {S : Type} : MRet (run S) := λ A a s, (s, Done a).
#[local] Instance run_bind {S : Type} : MBind (run S) := λ A B f m s,
  match m s with
  | (s', Done a) => f a s'
  | (s', Fatal msg) => (s', Fatal msg)
  end.

Definition fatal {S A : Type} (msg : string) : run S A := λ s, (s, Fatal msg).

Definition invoke {S A : Type} (op : S → S * A) : run S A :=
  λ s, let '(s', a) := op s in (s', Done a).

Section any_store.

Context {S : Type} (ops : StoreOps S).

(** The body of the loop over [stores] in [makeRcFields], for one store. *)
Definition makeRcFields_on (manifest : pods_Manifest)
    (nodeSelector : labels_Selector) (podLabels : gmap string string)
    : run S RC :=
  err ← invoke (λ s, store_SetDesiredReplicas ops s BOGUS 1);
  if err is None then fatal "Should have errored setting a nonexistent ID" else
  err ← invoke (λ s, store_Disable ops s BOGUS);
  if err is None then fatal "Should have errored disabling a nonexistent ID" else
  err ← invoke (λ s, store_Delete ops s BOGUS);
  if err is None then fatal "Should have errored deleting a nonexistent ID" else
  created ← invoke (λ s, store_Create ops s manifest nodeSelector podLabels);
  let '(fields, err) := created in
  if err is Some _ then
    fatal "Couldn't create to-be-deleted replication controller in store"
  else
  (* Just kidding, immediately delete. *)
  err ← invoke (λ s, store_Delete ops s (ID fields));
  if err is Some _ then
    fatal "Couldn't delete replication controller in store"
  else
  created ← invoke (λ s, store_Create ops s manifest nodeSelector podLabels);
  let '(fields, err) := created in
  if err is Some _ then
    fatal "Couldn't create to-be-returned replication controller in store"
  else
  (* If I get the manifest, It should give me the same results. *)
  got ← invoke (λ s, store_Get ops s (ID fields));
  let '(check, err) := got in
  if err is Some _ then
    fatal "Couldn't get replication controller in store"
  else
  let mismatches := checkFieldsSame fields check in
  if bool_decide (mismatches = 0) then
    listed ← invoke (store_List ops);
    let '(listeds, err) := listed in
    if err is Some _ then fatal "Couldn't list in store" else
    let found :=
      existsb (λ listed, bool_decide (ID listed = ID fields)) listeds in
    if negb found then
      fatal "List of store didn't list the just-created RC!"
    else mret fields
  else fatal "Mismatch of controller in store".

(** The end of [main], from "Complete. Let's disable that RC." to the last
    [Delete], on the record [id]. *)
Definition main_teardown_on (id : string) : run S unit :=
  err ← invoke (λ s, store_Disable ops s id);
  if err is Some _ then fatal "Couldn't disable" else
  (* Let's try to delete an RC with a desired count. *)
  err ← invoke (λ s, store_Delete ops s id);
  if err is None then fatal "Delete succeeded, should have errored!" else
  (* OK, what if we set the desired replicas to 0? *)
  err ← invoke (λ s, store_SetDesiredReplicas ops s id 0);
  if err is Some _ then fatal "Couldn't set desired to 0" else
  (* Deleting now should succeed. *)
  err ← invoke (λ s, store_Delete ops s id);
  if err is Some _ then fatal "Couldn't delete" else
  mret ().

End any_store.

(** The modelled RC store as an implementation of the interface. *)
Definition store_error_text (e : store_error) : error :=
  match e with
  | NotFound => Errorf "not found"
  | Conflict => Errorf "conflict"
  | Validation => Errorf "validation"
  | StoreError => Errorf "store error"
  end.

(** [fields.RC{}], returned next to an error. *)
Definition zero_RC : RC :=
  {| ID := ""; Manifest := {| Manifest_ID := ""; Manifest_SHA := "" |};
     NodeSelector := {| Selector_String := "" |}; PodLabels := ∅;
     Disabled := false; ReplicasDesired := 0 |}.

Definition model_ops : StoreOps Store := {|
  store_Create s manifest nodeSelector podLabels :=
    let '(s', (rc, err)) := Create s manifest nodeSelector podLabels in
    (s', (rc, store_error_text <$> err));
  store_Get s id :=
    match Get s id with
    | Ok rc => (s, (rc, None))
    | Failed e => (s, (zero_RC, Some (store_error_text e)))
    end;
  store_List s :=
    match List s with
    | Ok rcs => (s, (rcs, None))
    | Failed e => (s, ([], Some (store_error_text e)))
    end;
  store_SetDesiredReplicas s id n :=
    let '(s', err) := SetDesiredReplicas s id (Z.to_N n) in
    (s', store_error_text <$> err);
  store_Disable s id :=
    let '(s', err) := Disable s id in (s', store_error_text <$> err);
  store_Delete s id :=
    let '(s', err) := Delete s id in (s', store_error_text <$> err)
|}.

(** A store that keeps nothing and reports success on every call. *)
Definition accepting_ops : StoreOps unit := {|
  store_Create s manifest nodeSelector podLabels := (s, (zero_RC, None));
  store_Get s id := (s, (zero_RC, None));
  store_List s := (s, ([], None));
  store_SetDesiredReplicas s id n := (s, None);
  store_Disable s id := (s, None);
  store_Delete s id := (s, None)
|}.

(** One of the [stores] handed to [makeRcFields]: an implementation of the
    interface with its current state. *)
Record AnyStore : Type := {
  state_type : Type;
  methods : StoreOps state_type;
  state : state_type
}.

Definition with_state (st : AnyStore) (s : state_type st) : AnyStore :=
  {| state_type := state_type st; methods := methods st; state := s |}.

(** The loop [for i, store := range stores] of [makeRcFields]: [rcs[i]] is
    the record of store [i]; [log.Fatalf] ends the process, so that the
    stores after the failing one are never called. *)
Fixpoint makeRcFields_loop (manifest : pods_Manifest)
    (nodeSelector : labels_Selector) (podLabels : gmap string string)
    (stores : list AnyStore) : list AnyStore * outcome (list RC) :=
  match stores with
  | [] => ([], Done [])
  | st :: rest =>
      match makeRcFields_on (methods st) manifest nodeSelector podLabels
              (state st) with
      | (s', Fatal msg) => (with_state st s' :: rest, Fatal msg)
      | (s', Done fields) =>
          let '(rest', r) :=
            makeRcFields_loop manifest nodeSelector podLabels rest in
          (with_state st s' :: rest',
           match r with
           | Done rcs => Done (fields :: rcs)
           | Fatal msg => Fatal msg
           end)
      end
  end.

(** How the start of [makeRcFields] can end: with its three values, in
    [log.Fatalf], or in the run-time panic of a slice out of range. *)
Inductive started (A : Type) : Type :=
| Ready (a : A)
| Exit (msg : string)
| Panic.
Global Arguments Ready {A} a.
Global Arguments Exit {A} msg.
Global Arguments Panic {A}.

(** [err.Error()], as [%s] prints it. *)
Definition error_text (err : error) : string :=
  match err with Errorf msg => msg end.

(** The slice expression [s[:n]] on a Go string. *)
Definition slice_to (s : string) (n : nat) : option string :=
  if (n <=? String.length s)%nat then Some (String.substring 0 n s) else None.

(** The start of [makeRcFields], up to [podLabels], given what
    [pods.ManifestFromURI], [labels.Parse] and [manifest.SHA] returned. *)
Definition makeRcFields_start (fromURI : pods_Manifest * option error)
    (parsed : labels_Selector * option error) (digest : string * option error)
    : started (pods_Manifest * labels_Selector * gmap string string) :=
  let '(manifest, err) := fromURI in
  if err is Some e then Exit (error_text e) else
  let '(nodeSelector, err) := parsed in
  if err is Some e then Exit ("Invalid node selector: " +:+ error_text e) else
  let '(sha, err) := digest in
  if err is Some e then Exit ("Can't get manifest sha: " +:+ error_text e) else
  match slice_to sha 63 with
  | None => Panic
  | Some truncated =>
      let podLabels : gmap string string :=
        <["mini-orchestrator" := "true"]>
          (<["sha-truncated" := truncated]> ∅) in
      Ready (manifest, nodeSelector, podLabels)
  end.

(** How the wait for the nodes can stand after the polls so far. *)
Inductive waited : Type :=
| Reached (currentNodes : list string)
| Stopped (msg : string)
| Sleeping.

(** The loop [for len(currentNodes) != *nodes] of [main], over what the
    calls of [CurrentNodes] return, one per turn. *)
Fixpoint wait_for_nodes (nodes : Z) (currentNodes : list string)
    (polls : list (list string * option error)) : waited :=
  if bool_decide (Z.of_nat (length currentNodes) ≠ nodes) then
    match polls with
    | [] => Sleeping
    | (polled, err) :: polls' =>
        if err is Some _ then Stopped "Couldn't get current nodes"
        else wait_for_nodes nodes polled polls'
    end
  else Reached currentNodes.

End orchestrator_any.

(** * Properties *)

(** ** Regression values for [path.Clean] and [path.Join], from the tables
    of Go's own tests *)
Example Clean_t1 : path.Clean "abc//def//ghi" = "abc/def/ghi". Proof. reflexivity. Qed.
Example Clean_t2 : path.Clean "abc/./def" = "abc/def". Proof. reflexivity. Qed.
Example Clean_t3 : path.Clean "/../abc" = "/abc". Proof. reflexivity. Qed.
Example Clean_t4 : path.Clean "abc/def/../../.." = "..". Proof. reflexivity. Qed.
Example Clean_t5 : path.Clean "abc/./../def" = "def". Proof. reflexivity. Qed.
Example Clean_t6 : path.Clean "abc/../../././../def" = "../../def". Proof. reflexivity. Qed.
Example Clean_t7 : path.Clean "/abc/def/../../.." = "/". Proof. reflexivity. Qed.
Example Clean_t8 : path.Clean "abc/def/ghi/../jkl" = "abc/def/jkl". Proof. reflexivity. Qed.
Example Clean_t9 : path.Clean "" = ".". Proof. reflexivity. Qed.
Example Clean_t10 : path.Clean "abc/" = "abc". Proof. reflexivity. Qed.
Example Clean_t11 : path.Clean "../.." = "../..". Proof. reflexivity. Qed.
Example Clean_t12 : path.Clean "abc/def/../ghi/../jkl" = "abc/jkl". Proof. reflexivity. Qed.
Example Clean_t13 : path.Clean "abc/def/.." = "abc". Proof. reflexivity. Qed.
Example Join_t1 : path.Join ["a"; "b"] = "a/b". Proof. reflexivity. Qed.
Example Join_t2 : path.Join ["a"; ""] = "a". Proof. reflexivity. Qed.
Example Join_t3 : path.Join [""; "b"] = "b". Proof. reflexivity. Qed.
Example Join_t4 : path.Join ["/"; "a"] = "/a". Proof. reflexivity. Qed.
Example Join_t5 : path.Join ["a/"; "b"] = "a/b". Proof. reflexivity. Qed.
Example Join_t6 : path.Join [""; ""] = "". Proof. reflexivity. Qed.

Example PodLockPath_doc :
  kp.PodLockPath kp.INTENT_TREE "some_host" "some_pod"
  = ("lock/intent/some_host/some_pod", None).
Proof. reflexivity. Qed.


Section string_facts.

Lemma append_cons (c : ascii) (s t : string) :
  String c s +:+ t = String c (s +:+ t).
Proof. reflexivity. Qed.

Lemma append_nil_l (s : string) : "" +:+ s = s.
Proof. reflexivity. Qed.

Lemma append_nil_r (s : string) : s +:+ "" = s.
Proof. induction s as [|c s IH]; [done | by rewrite append_cons, IH]. Qed.

Lemma append_assoc (s1 s2 s3 : string) : (s1 +:+ s2) +:+ s3 = s1 +:+ s2 +:+ s3.
Proof.
  induction s1 as [|c s1 IH]; [done | by rewrite !append_cons, IH].
Qed.

Lemma length_append (s1 s2 : string) :
  String.length (s1 +:+ s2) = (String.length s1 + String.length s2)%nat.
Proof.
  induction s1 as [|c s1 IH]; [done |].
  rewrite append_cons. simpl. by rewrite IH.
Qed.

Lemma append_eq_nil (s1 s2 : string) : s1 +:+ s2 = "" → s1 = "" ∧ s2 = "".
Proof. destruct s1; [done | rewrite append_cons; discriminate]. Qed.

Lemma join_slash_cons (e : string) (es : list string) :
  path.join_slash (e :: es) = e +:+ rest_of es.
Proof.
  revert e. induction es as [|e' es IH]; intros e.
  - simpl. by rewrite append_nil_r.
  - change (path.join_slash (e :: e' :: es))
      with (e +:+ "/" +:+ path.join_slash (e' :: es)).
    by rewrite IH.
Qed.

Lemma at_sep_rest_of (es : list string) : path.at_sep (rest_of es) = true.
Proof. by destruct es. Qed.

End string_facts.

(** ** [Clean] on paths made of plain elements *)
Section clean_plain.

Lemma copy_elem_length (rest out : string) :
  (String.length (path.copy_elem rest out).2 ≤ String.length rest)%nat.
Proof.
  revert out. induction rest as [|c t IH]; intros out; simpl; [lia |].
  destruct (Ascii.eqb c path.slash); simpl; [lia |].
  specialize (IH (path.append_byte out c)). lia.
Qed.

Lemma skip_byte_length (t : string) :
  (String.length (path.skip_byte t) ≤ String.length t)%nat.
Proof. destruct t; simpl; lia. Qed.

(** The fuel handed to the loop by [Clean] is enough: more changes nothing. *)
Lemma clean_loop_fuel (f1 f2 : nat) (rooted : bool) (rest out : string)
    (dotdot : nat) :
  (String.length rest ≤ f1)%nat → (String.length rest ≤ f2)%nat →
  path.clean_loop f1 rooted rest out dotdot
  = path.clean_loop f2 rooted rest out dotdot.
Proof.
  revert f2 rest out dotdot.
  induction f1 as [|f1 IH]; intros f2 rest out dotdot H1 H2.
  - destruct rest; [by destruct f2 | simpl in H1; lia].
  - destruct f2 as [|f2]; [destruct rest; [done | simpl in H2; lia] |].
    destruct rest as [|c t]; [done |]. simpl in H1, H2.
    pose proof (skip_byte_length t) as Hskip.
    cbn [path.clean_loop].
    destruct (Ascii.eqb c path.slash) eqn:Hs; [apply IH; lia |].
    destruct (Ascii.eqb c path.dot && path.at_sep t); [apply IH; lia |].
    destruct (Ascii.eqb c path.dot && path.dot_then_sep t).
    { destruct (dotdot <? String.length out)%nat; [apply IH; lia |].
      destruct (negb rooted); apply IH; lia. }
    cbn [path.copy_elem]. rewrite Hs.
    match goal with
    | |- context [path.copy_elem t ?o] =>
        pose proof (copy_elem_length t o) as Hle;
        destruct (path.copy_elem t o) as [out2 rest']
    end.
    simpl in Hle. apply IH; lia.
Qed.

Lemma copy_elem_plain (e tl out : string) :
  has_slash e = false → path.at_sep tl = true →
  path.copy_elem (e +:+ tl) out = (out +:+ e, tl).
Proof.
  revert out. induction e as [|c e IH]; intros out He Htl.
  - rewrite append_nil_l, append_nil_r.
    destruct tl as [|c t]; [done |]. simpl in *. by rewrite Htl.
  - simpl in He. apply orb_false_iff in He as [Hc He].
    rewrite append_cons. cbn [path.copy_elem]. rewrite Hc.
    rewrite IH by done. unfold path.append_byte.
    by rewrite append_assoc, append_cons, append_nil_l.
Qed.

Lemma plain_inv (e : string) :
  plain e = true →
  has_slash e = false ∧ e ≠ "" ∧ e ≠ "." ∧ e ≠ "..".
Proof.
  unfold plain. rewrite !andb_true_iff, !negb_true_iff, !bool_decide_eq_false.
  tauto.
Qed.

Lemma at_sep_append (e tl : string) :
  has_slash e = false → path.at_sep tl = true →
  path.at_sep (e +:+ tl) = true → e = "".
Proof.
  intros He Htl H. destruct e as [|c e]; [done |].
  rewrite append_cons in H. simpl in H, He.
  apply orb_false_iff in He as [Hc _]. congruence.
Qed.

(** One plain element is copied to the buffer, after a slash unless the
    buffer is still empty. *)
Lemma clean_loop_elem (fuel : nat) (e tl out : string) :
  plain e = true → path.at_sep tl = true →
  path.clean_loop (S fuel) false (e +:+ tl) out 0
  = path.clean_loop fuel false tl
      ((if bool_decide (out = "") then out else out +:+ "/") +:+ e) 0.
Proof.
  intros (He & Hne & Hd & Hdd)%plain_inv Htl.
  destruct e as [|c e]; [done |].
  pose proof He as He'. simpl in He'. apply orb_false_iff in He' as [Hc Hse].
  rewrite append_cons. cbn [path.clean_loop]. rewrite Hc.
  destruct (Ascii.eqb c path.dot && path.at_sep (e +:+ tl)) eqn:H1.
  { apply andb_true_iff in H1 as [Hcd Hsep].
    apply Ascii.eqb_eq in Hcd. apply at_sep_append in Hsep; [|done..].
    by subst. }
  destruct (Ascii.eqb c path.dot && path.dot_then_sep (e +:+ tl)) eqn:H2.
  { apply andb_true_iff in H2 as [Hcd H2]. apply Ascii.eqb_eq in Hcd.
    destruct e as [|c' e'].
    - rewrite append_nil_l in H2. destruct tl as [|c' t']; [done |].
      simpl in H2. apply andb_true_iff in H2 as [Hc' _]. simpl in Htl.
      apply Ascii.eqb_eq in Hc', Htl. rewrite Hc' in Htl. discriminate.
    - rewrite append_cons in H2. simpl in H2.
      apply andb_true_iff in H2 as [Hc' Hsep].
      apply Ascii.eqb_eq in Hc'. simpl in Hse.
      apply orb_false_iff in Hse as [_ Hse'].
      apply at_sep_append in Hsep; [|done..]. by subst. }
  rewrite <- (append_cons c e tl).
  rewrite copy_elem_plain by done.
  cbn [negb andb orb]. f_equal. f_equal.
  destruct out; [done |]. by rewrite bool_decide_eq_false_2.
Qed.

Lemma clean_loop_rest (es : list string) (fuel : nat) (out : string) :
  Forall (λ e, plain e = true) es → out ≠ "" →
  (String.length (rest_of es) ≤ fuel)%nat →
  path.clean_loop fuel false (rest_of es) out 0 = out +:+ rest_of es.
Proof.
  intros Hes. revert fuel out.
  induction Hes as [|e es He Hes IH]; intros fuel out Hout Hfuel.
  - rewrite append_nil_r. by destruct fuel.
  - cbn [rest_of] in *. rewrite append_cons, append_nil_l in *.
    simpl in Hfuel. destruct fuel as [|fuel]; [lia |].
    cbn [path.clean_loop]. change (Ascii.eqb "/" path.slash) with true.
    cbv iota. rewrite length_append in Hfuel.
    pose proof (plain_inv _ He) as (_ & Hne & _).
    destruct fuel as [|fuel]; [destruct e; [done | simpl in Hfuel; lia] |].
    rewrite clean_loop_elem by (done || apply at_sep_rest_of).
    rewrite bool_decide_eq_false_2 by done.
    rewrite IH.
    + by rewrite !append_assoc.
    + intros [H _]%append_eq_nil. by apply append_eq_nil in H as [? _].
    + destruct e; [done | simpl in Hfuel; lia].
Qed.

(** A slash-separated sequence of plain elements is already clean. *)
Lemma Clean_plain (es : list string) :
  Forall (λ e, plain e = true) es → es ≠ [] →
  path.Clean (path.join_slash es) = path.join_slash es.
Proof.
  intros Hes Hne. destruct Hes as [|e es He Hes]; [done |].
  rewrite join_slash_cons.
  pose proof (plain_inv _ He) as (Hs & Hnil & _).
  destruct (e +:+ rest_of es) as [|c p] eqn:Ep.
  { by apply append_eq_nil in Ep as [? _]. }
  assert (Ascii.eqb c path.slash = false) as Hc.
  { destruct e as [|c' e']; [done |]. rewrite append_cons in Ep.
    injection Ep as -> _. simpl in Hs. by apply orb_false_iff in Hs as [? _]. }
  unfold path.Clean. rewrite Hc, <- Ep. 
  assert (String.length (e +:+ rest_of es)
          = S (String.length p)) as -> by (by rewrite Ep).
  rewrite clean_loop_elem by (done || apply at_sep_rest_of).
  rewrite bool_decide_eq_true_2, append_nil_l by done.
  rewrite clean_loop_rest; [| done | done |].
  - by rewrite Ep.
  - assert (String.length (e +:+ rest_of es) = S (String.length p)) as Hl
      by (by rewrite Ep).
    rewrite length_append in Hl. destruct e; [done | simpl in Hl; lia].
Qed.

End clean_plain.

Section plain_paths.

Lemma plain_path_elem (e : string) : plain e = true → plain_path e.
Proof. intros He. exists [e]. by repeat constructor. Qed.

Lemma plain_path_nonempty (s : string) : plain_path s → s ≠ "".
Proof.
  intros (es & Hne & Hes & ->). destruct Hes as [|e es He _]; [done |].
  rewrite join_slash_cons. intros [-> _]%append_eq_nil. done.
Qed.

Lemma rest_of_app (es1 es2 : list string) :
  rest_of (es1 ++ es2) = rest_of es1 +:+ rest_of es2.
Proof.
  induction es1 as [|e es1 IH]; [done |].
  cbn [app rest_of]. by rewrite IH, !append_assoc.
Qed.

Lemma join_slash_app (es1 es2 : list string) :
  es1 ≠ [] → es2 ≠ [] →
  path.join_slash (es1 ++ es2)
  = path.join_slash es1 +:+ "/" +:+ path.join_slash es2.
Proof.
  intros H1 H2. destruct es1 as [|e1 es1]; [done |].
  destruct es2 as [|e2 es2]; [done |].
  change ((e1 :: es1) ++ e2 :: es2) with (e1 :: (es1 ++ e2 :: es2)).
  rewrite !join_slash_cons, rest_of_app. cbn [rest_of].
  by rewrite !append_assoc.
Qed.

Lemma plain_path_join (a b : string) :
  plain_path a → plain_path b → plain_path (a +:+ "/" +:+ b).
Proof.
  intros (es1 & H1 & HF1 & ->) (es2 & H2 & HF2 & ->).
  exists (es1 ++ es2). split; [by destruct es1 |].
  split; [by apply Forall_app | by rewrite join_slash_app].
Qed.

(** Joining two plain paths is plain concatenation around a slash. *)
Lemma Join_plain (a b : string) :
  plain_path a → plain_path b → path.Join [a; b] = a +:+ "/" +:+ b.
Proof.
  intros Ha Hb. pose proof (plain_path_nonempty _ Ha) as Hne.
  pose proof (plain_path_join _ _ Ha Hb) as (es & Hes & HF & E).
  cbn [path.Join]. rewrite bool_decide_eq_false_2 by done.
  change (path.join_slash [a; b]) with (a +:+ "/" +:+ b).
  rewrite E. by apply Clean_plain.
Qed.

Lemma Clean_nonempty (p : string) : path.Clean p ≠ "".
Proof.
  unfold path.Clean. destruct p as [|c t]; [done |].
  by destruct (if Ascii.eqb c path.slash then _ else _).
Qed.

(** [Join] of a non-empty first element with anything is [Clean] of the two
    around a slash. *)
Lemma Join_two (a b : string) :
  a ≠ "" → path.Join [a; b] = path.Clean (a +:+ "/" +:+ b).
Proof. intros Ha. cbn [path.Join]. by rewrite bool_decide_eq_false_2. Qed.

End plain_paths.

Section key_paths.

Import kp.

Lemma nodePath_hooks (nodeName : string) :
  nodePath HOOK_TREE nodeName = ("hooks", None).
Proof. reflexivity. Qed.

Lemma nodePath_ok (podPrefix nodeName : string) :
  podPrefix = INTENT_TREE ∨ podPrefix = REALITY_TREE → nodeName ≠ "" →
  nodePath podPrefix nodeName
  = (path.Clean (podPrefix +:+ "/" +:+ nodeName), None).
Proof.
  intros Ht Hn. unfold nodePath.
  rewrite (bool_decide_eq_false_2 (podPrefix = HOOK_TREE))
    by (by destruct Ht as [-> | ->]).
  rewrite bool_decide_eq_false_2 by done.
  rewrite Join_two; [done | by destruct Ht as [-> | ->]].
Qed.

Lemma tree_plain (podPrefix : string) :
  podPrefix = INTENT_TREE ∨ podPrefix = REALITY_TREE ∨ podPrefix = HOOK_TREE →
  plain_path podPrefix.
Proof. intros [-> | [-> | ->]]; by apply plain_path_elem. Qed.

Lemma nodePath_nonempty (podPrefix nodeName np : string) :
  nodePath podPrefix nodeName = (np, None) → np ≠ "".
Proof.
  unfold nodePath. case_bool_decide as Hh.
  - rewrite Hh. by intros [= <-].
  - case_bool_decide as Hn; [done |]. intros Heq.
    apply (f_equal fst) in Heq. cbn [fst] in Heq. rewrite <- Heq.
    cbn [path.Join]. case_bool_decide.
    + rewrite bool_decide_eq_false_2 by done. apply Clean_nonempty.
    + apply Clean_nonempty.
Qed.

Lemma podPath_nonempty (podPrefix nodeName podId p : string) :
  podPath podPrefix nodeName podId = (p, None) → p ≠ "".
Proof.
  unfold podPath.
  destruct (nodePath podPrefix nodeName) as [np [err|]] eqn:Hnp; [done |].
  case_bool_decide; [done |]. intros Heq.
  apply (f_equal fst) in Heq. cbn [fst] in Heq. rewrite <- Heq.
  rewrite Join_two by eauto using nodePath_nonempty. apply Clean_nonempty.
Qed.

Lemma nodePath_plain (podPrefix nodeName : string) :
  podPrefix = INTENT_TREE ∨ podPrefix = REALITY_TREE → plain_path nodeName →
  nodePath podPrefix nodeName = (podPrefix +:+ "/" +:+ nodeName, None).
Proof.
  intros Ht Hn. rewrite nodePath_ok by eauto using plain_path_nonempty.
  rewrite <- Join_two by (by destruct Ht as [-> | ->]).
  rewrite Join_plain; [done | apply tree_plain; tauto | done].
Qed.

Lemma podPath_node_error (podPrefix nodeName podId s : string) (err : error) :
  nodePath podPrefix nodeName = (s, Some err) →
  podPath podPrefix nodeName podId = ("", Some err).
Proof. intros Hnp. unfold podPath. by rewrite Hnp. Qed.

Lemma podPath_no_pod (podPrefix nodeName np : string) :
  nodePath podPrefix nodeName = (np, None) →
  podPath podPrefix nodeName "" = ("", Some err_no_pod).
Proof. intros Hnp. unfold podPath. by rewrite Hnp. Qed.

Lemma podPath_ok (podPrefix nodeName podId np : string) :
  nodePath podPrefix nodeName = (np, None) → podId ≠ "" →
  podPath podPrefix nodeName podId
  = (path.Clean (np +:+ "/" +:+ podId), None).
Proof.
  intros Hnp Hp. pose proof (nodePath_nonempty _ _ _ Hnp) as Hne.
  unfold podPath. rewrite Hnp, bool_decide_eq_false_2 by done.
  by rewrite Join_two.
Qed.

Lemma podPath_plain (podPrefix nodeName podId np : string) :
  nodePath podPrefix nodeName = (np, None) →
  plain_path np → plain_path podId →
  podPath podPrefix nodeName podId = (np +:+ "/" +:+ podId, None).
Proof.
  intros Hnp Hn Hp. pose proof (nodePath_nonempty _ _ _ Hnp) as Hne.
  rewrite (podPath_ok _ _ _ np) by eauto using plain_path_nonempty.
  rewrite <- Join_two by done. by rewrite Join_plain.
Qed.

Lemma PodLockPath_pod_error (podPrefix nodeName podId s : string)
    (err : error) :
  podPath podPrefix nodeName podId = (s, Some err) →
  PodLockPath podPrefix nodeName podId = ("", Some err).
Proof. intros Hp. unfold PodLockPath. by rewrite Hp. Qed.

Lemma PodLockPath_ok (podPrefix nodeName podId p : string) :
  podPath podPrefix nodeName podId = (p, None) →
  PodLockPath podPrefix nodeName podId
  = (path.Clean (LOCK_TREE +:+ "/" +:+ p), None).
Proof. intros Hp. unfold PodLockPath. rewrite Hp. by rewrite Join_two. Qed.

Lemma PodLockPath_of_plain (podPrefix nodeName podId p : string) :
  podPath podPrefix nodeName podId = (p, None) → plain_path p →
  PodLockPath podPrefix nodeName podId = (LOCK_TREE +:+ "/" +:+ p, None).
Proof.
  intros Hp Hplain. rewrite (PodLockPath_ok _ _ _ p) by done.
  rewrite <- Join_two by done.
  rewrite Join_plain; [done | by apply plain_path_elem | done].
Qed.

(** For the intent and reality trees and plain names, the lock path spelled
    out. *)
Lemma PodLockPath_plain (podPrefix nodeName podId : string) :
  podPrefix = INTENT_TREE ∨ podPrefix = REALITY_TREE →
  plain_path nodeName → plain_path podId →
  PodLockPath podPrefix nodeName podId
  = ("lock/" +:+ podPrefix +:+ "/" +:+ nodeName +:+ "/" +:+ podId, None).
Proof.
  intros Ht Hn Hp.
  pose proof (nodePath_plain _ _ Ht Hn) as Hnp.
  assert (plain_path (podPrefix +:+ "/" +:+ nodeName)) as Hnpp.
  { apply plain_path_join; [apply tree_plain; tauto | done]. }
  pose proof (podPath_plain _ _ podId _ Hnp Hnpp Hp) as Hpp.
  rewrite (PodLockPath_of_plain _ _ _ _ Hpp) by (by apply plain_path_join).
  by rewrite !append_assoc.
Qed.

(** On the hooks tree the node name plays no part in the lock path. *)
Lemma PodLockPath_hooks_plain (nodeName podId : string) :
  plain_path podId →
  PodLockPath HOOK_TREE nodeName podId = ("lock/hooks/" +:+ podId, None).
Proof.
  intros Hp.
  pose proof (podPath_plain HOOK_TREE nodeName podId "hooks"
                (nodePath_hooks nodeName)
                (plain_path_elem "hooks" eq_refl) Hp) as Hpp.
  rewrite (PodLockPath_of_plain _ _ _ _ Hpp); [done |].
  apply plain_path_join; [by apply plain_path_elem | done].
Qed.

(** C2, the claim as stated, fails: on the intent tree the node name [..]
    is not empty, and the result is [.], not [intent/..]. *)
Lemma nodePath_dotdot_cleaned :
  nodePath INTENT_TREE ".." = (".", None)
  ∧ nodePath INTENT_TREE ".." ≠ (INTENT_TREE +:+ "/" +:+ "..", None).
Proof. split; [reflexivity | by vm_compute]. Qed.

(** C2 (amended).  On the hooks tree [nodePath] ignores the node name and
    returns the root [hooks] with no error.  On the intent and reality trees
    it returns the "nodeName not specified" error exactly when the node name
    is empty, and otherwise [path.Join] of tree and node: the cleaned form of
    [tree/node], which is [tree/node] itself whenever the node name is a
    plain path. *)
Theorem nodePath_spec (podPrefix nodeName : string) :
  nodePath HOOK_TREE nodeName = ("hooks", None)
  ∧ (podPrefix = INTENT_TREE ∨ podPrefix = REALITY_TREE →
     (nodeName = "" →
      nodePath podPrefix nodeName = ("", Some err_no_node))
     ∧ (nodeName ≠ "" →
        nodePath podPrefix nodeName
        = (path.Clean (podPrefix +:+ "/" +:+ nodeName), None))
     ∧ (plain_path nodeName →
        nodePath podPrefix nodeName
        = (podPrefix +:+ "/" +:+ nodeName, None))).
Proof.
  split; [apply nodePath_hooks |]. intros Ht. split; [| split].
  - intros ->. by destruct Ht as [-> | ->].
  - by apply nodePath_ok.
  - by apply nodePath_plain.
Qed.

Lemma nodePath_spec_witness :
  nodePath REALITY_TREE "" = ("", Some err_no_node)
  ∧ nodePath REALITY_TREE "web01.example.com"
    = (path.Clean "reality/web01.example.com", None)
  ∧ nodePath REALITY_TREE "web01.example.com"
    = ("reality/web01.example.com", None).
Proof.
  destruct (nodePath_spec REALITY_TREE "") as [_ H0].
  destruct (nodePath_spec REALITY_TREE "web01.example.com") as [_ H1].
  destruct (H0 (or_intror eq_refl)) as (H0a & _ & _).
  destruct (H1 (or_intror eq_refl)) as (_ & H1b & H1c).
  split; [exact (H0a eq_refl) |].
  split; [apply H1b; discriminate |].
  apply H1c, plain_path_elem. reflexivity.
Defined.

(** C5, the claim as stated, fails twice over.  With node name and pod id
    both empty on the intent tree the error is the node-name one, not the
    pod-id one; and the pod id [..] gives [intent], not [intent/n/..]. *)
Lemma podPath_node_error_first :
  podPath INTENT_TREE "" "" = ("", Some err_no_node)
  ∧ podPath INTENT_TREE "" "" ≠ ("", Some err_no_pod)
  ∧ nodePath INTENT_TREE "n" = ("intent/n", None)
  ∧ podPath INTENT_TREE "n" ".." = ("intent", None)
  ∧ podPath INTENT_TREE "n" ".." ≠ ("intent/n" +:+ "/" +:+ "..", None).
Proof. repeat split; (reflexivity || by vm_compute). Qed.

(** C5 (amended).  When [nodePath] fails, [podPath] fails with that same
    error, whatever the pod id.  When [nodePath] succeeds with [np],
    [podPath] returns the "pod id not specified" error if the pod id is
    empty, and otherwise [path.Join] of [np] and the pod id: the cleaned form
    of [np/podId], which is [np/podId] itself whenever both are plain
    paths. *)
Theorem podPath_spec (podPrefix nodeName podId : string) :
  (∀ s err, nodePath podPrefix nodeName = (s, Some err) →
            podPath podPrefix nodeName podId = ("", Some err))
  ∧ (∀ np, nodePath podPrefix nodeName = (np, None) →
       (podId = "" →
        podPath podPrefix nodeName podId = ("", Some err_no_pod))
       ∧ (podId ≠ "" →
          podPath podPrefix nodeName podId
          = (path.Clean (np +:+ "/" +:+ podId), None))
       ∧ (plain_path np → plain_path podId →
          podPath podPrefix nodeName podId = (np +:+ "/" +:+ podId, None))).
Proof.
  split; [intros s err; apply podPath_node_error |].
  intros np Hnp. split; [| split].
  - intros ->. by apply (podPath_no_pod _ _ np).
  - by apply podPath_ok.
  - by apply podPath_plain.
Qed.

Lemma podPath_spec_witness :
  podPath INTENT_TREE "" "mypod" = ("", Some err_no_node)
  ∧ podPath INTENT_TREE "web01" "" = ("", Some err_no_pod)
  ∧ podPath INTENT_TREE "web01" "mypod"
    = (path.Clean "intent/web01/mypod", None)
  ∧ podPath INTENT_TREE "web01" "mypod" = ("intent/web01/mypod", None).
Proof.
  destruct (podPath_spec INTENT_TREE "" "mypod") as [Herr _].
  destruct (podPath_spec INTENT_TREE "web01" "") as [_ Hnil].
  destruct (podPath_spec INTENT_TREE "web01" "mypod") as [_ Hok].
  destruct (Hnil "intent/web01" eq_refl) as (Hnil' & _ & _).
  destruct (Hok "intent/web01" eq_refl) as (_ & Hclean & Hplain).
  split; [exact (Herr "" err_no_node eq_refl) |].
  split; [exact (Hnil' eq_refl) |].
  split; [apply Hclean; discriminate |].
  apply Hplain.
  - exists ["intent"; "web01"]. split; [discriminate |].
    split; [| reflexivity]. repeat constructor.
  - apply plain_path_elem. reflexivity.
Defined.

(** C6, the claim as stated, fails: for the hook pod id [..], [podPath]
    succeeds with [.], and the lock path is [lock], not [lock/.]. *)
Lemma PodLockPath_dotdot_cleaned :
  podPath HOOK_TREE "" ".." = (".", None)
  ∧ PodLockPath HOOK_TREE "" ".." = ("lock", None)
  ∧ PodLockPath HOOK_TREE "" ".." ≠ (LOCK_TREE +:+ "/" +:+ ".", None).
Proof. repeat split; (reflexivity || by vm_compute). Qed.

(** C6 (amended).  Whenever [podPath] fails, [PodLockPath] fails with the
    same error.  Whenever [podPath] succeeds with [p], [PodLockPath] succeeds
    with [path.Join] of [lock] and [p]: the cleaned form of [lock/p], which
    is [lock/p] itself whenever [p] is a plain path. *)
Theorem PodLockPath_spec (podPrefix nodeName podId : string) :
  (∀ s err, podPath podPrefix nodeName podId = (s, Some err) →
            PodLockPath podPrefix nodeName podId = ("", Some err))
  ∧ (∀ p, podPath podPrefix nodeName podId = (p, None) →
       PodLockPath podPrefix nodeName podId
       = (path.Clean (LOCK_TREE +:+ "/" +:+ p), None)
       ∧ (plain_path p →
          PodLockPath podPrefix nodeName podId
          = (LOCK_TREE +:+ "/" +:+ p, None))).
Proof.
  split; [intros s err; apply PodLockPath_pod_error |].
  intros p Hp. split; [by apply PodLockPath_ok | by apply PodLockPath_of_plain].
Qed.

Lemma PodLockPath_spec_witness :
  PodLockPath REALITY_TREE "" "mypod" = ("", Some err_no_node)
  ∧ PodLockPath HOOK_TREE "web01" "" = ("", Some err_no_pod)
  ∧ PodLockPath HOOK_TREE "web01" "mypod" = ("lock/hooks/mypod", None).
Proof.
  destruct (PodLockPath_spec REALITY_TREE "" "mypod") as [Hnode _].
  destruct (PodLockPath_spec HOOK_TREE "web01" "") as [Hpod _].
  destruct (PodLockPath_spec HOOK_TREE "web01" "mypod") as [_ Hok].
  destruct (Hok "hooks/mypod" eq_refl) as [_ Hplain].
  split; [exact (Hnode "" err_no_node eq_refl) |].
  split; [exact (Hpod "" err_no_pod eq_refl) |].
  apply Hplain. exists ["hooks"; "mypod"].
  split; [discriminate |]. split; [| reflexivity]. repeat constructor.
Defined.

End key_paths.


(** ** The status tracker *)
Section status_tracker.

Import preparer_main.

Lemma int_wrap_range (z : Z) : int_min ≤ int_wrap z ≤ int_max.
Proof.
  unfold int_wrap, int_min, int_max.
  pose proof (Z.mod_pos_bound (z - - 2 ^ 63) (2 ^ 64) eq_refl). lia.
Qed.

Lemma int_wrap_id (z : Z) : int_min ≤ z ≤ int_max → int_wrap z = z.
Proof.
  unfold int_wrap, int_min, int_max. intros Hz.
  rewrite Z.mod_small; lia.
Qed.

Lemma int_wrap_add_l (a b : Z) : int_wrap (int_wrap a + b) = int_wrap (a + b).
Proof.
  unfold int_wrap. f_equal.
  replace ((a - int_min) mod 2 ^ 64 + int_min + b - int_min)
    with ((a - int_min) mod 2 ^ 64 + b) by lia.
  rewrite Zplus_mod_idemp_l. f_equal. lia.
Qed.

Lemma watchForErrors_cons (ev : event) (evs : list event) (st : tracker) :
  watchForErrors (ev :: evs) st = watchForErrors evs (watchForErrors_step st ev).
Proof. reflexivity. Qed.

Lemma watchForErrors_snoc (evs : list event) (ev : event) (st : tracker) :
  watchForErrors (evs ++ [ev]) st
  = watchForErrors_step (watchForErrors evs st) ev.
Proof. unfold watchForErrors. by rewrite fold_left_app. Qed.

Lemma watchForErrors_app (evs1 evs2 : list event) (st : tracker) :
  watchForErrors (evs1 ++ evs2) st
  = watchForErrors evs2 (watchForErrors evs1 st).
Proof. unfold watchForErrors. by rewrite fold_left_app. Qed.

(** A run of [n] errors in a row adds [n] to the counter, in [int]
    arithmetic. *)
Lemma consecutive_errors (n : nat) (err : option error) (st : tracker) :
  consecutive (watchForErrors (replicate (S n) (ErrEvent err)) st)
  = int_wrap (consecutive st + Z.of_nat (S n)).
Proof.
  revert st. induction n as [|n IH]; intros st.
  - reflexivity.
  - change (replicate (S (S n)) (ErrEvent err))
      with (ErrEvent err :: replicate (S n) (ErrEvent err)).
    rewrite watchForErrors_cons, IH.
    cbn [watchForErrors_step consecutive].
    rewrite int_wrap_add_l. f_equal. lia.
Qed.

(** The largest [int] is reached: by that many errors in a row from the
    start. *)
Lemma int_max_reached (err : option error) :
  consecutive
    (watchForErrors (replicate (Z.to_nat int_max) (ErrEvent err)) tracker_init)
  = int_max.
Proof.
  assert (Z.to_nat int_max = S (Z.to_nat (int_max - 1))) as ->.
  { rewrite <- Z2Nat.inj_succ by (unfold int_max; lia). f_equal; lia. }
  rewrite consecutive_errors.
  rewrite Nat2Z.inj_succ, Z2Nat.id by (unfold int_max; lia).
  cbn [tracker_init consecutive]. apply int_wrap_id.
  unfold int_min, int_max. lia.
Qed.

(** C3, the claim as stated, fails at the largest [int]: the state is the
    one reached by [2^63 - 1] errors in a row, and one more error takes the
    counter to the smallest [int], not one higher. *)
Lemma error_count_wraps :
  let st := {| consecutive := int_max; lastError := Some (Errorf "boom") |} in
  let st' := watchForErrors_step st (ErrEvent (Some (Errorf "boom"))) in
  consecutive st' = int_min ∧ consecutive st' ≠ consecutive st + 1.
Proof. split; [reflexivity | by vm_compute]. Qed.

(** C3 (amended).  Each error event stores that error as the last error and
    increments the counter by 1 in [int] arithmetic: by exactly 1 below the
    largest [int], wrapping round from there.  Each success event resets the
    counter to zero; after any run of events that ends in a success the
    counter is 0. *)
Theorem watchForErrors_counts (st : tracker) :
  (∀ err,
     lastError (watchForErrors_step st (ErrEvent err)) = err
     ∧ consecutive (watchForErrors_step st (ErrEvent err))
       = int_wrap (consecutive st + 1)
     ∧ (int_min ≤ consecutive st < int_max →
        consecutive (watchForErrors_step st (ErrEvent err))
        = consecutive st + 1))
  ∧ consecutive (watchForErrors_step st SuccessEvent) = 0
  ∧ (∀ evs, consecutive (watchForErrors (evs ++ [SuccessEvent]) st) = 0).
Proof.
  split; [| split].
  - intros err. split; [done |]. split; [done |].
    intros Hc. cbn [watchForErrors_step consecutive].
    apply int_wrap_id. unfold int_min, int_max in *. lia.
  - done.
  - intros evs. by rewrite watchForErrors_snoc.
Qed.

Lemma watchForErrors_counts_witness :
  consecutive
    (watchForErrors_step {| consecutive := 41; lastError := None |}
       (ErrEvent (Some (Errorf "boom"))))
  = 42.
Proof.
  destruct (watchForErrors_counts {| consecutive := 41; lastError := None |})
    as [Herr _].
  destruct (Herr (Some (Errorf "boom"))) as (_ & _ & Hexact).
  apply Hexact. cbn [consecutive]. unfold int_min, int_max. lia.
Defined.

(** After a success, [k] errors in a row leave the counter at [k], as long
    as [k] fits an [int]. *)
Lemma consecutive_since_success (evs : list event) (k : nat)
    (err : option error) (st : tracker) :
  Z.of_nat k ≤ int_max →
  consecutive
    (watchForErrors (evs ++ SuccessEvent :: replicate k (ErrEvent err)) st)
  = Z.of_nat k.
Proof.
  intros Hk. rewrite watchForErrors_app, watchForErrors_cons.
  destruct k as [|k]; [done |].
  rewrite consecutive_errors. cbn [watchForErrors_step consecutive].
  apply int_wrap_id. unfold int_min, int_max in *. lia.
Qed.

End status_tracker.

Section last_error.

Import preparer_main.

Lemma lastError_latest (evs : list event) (st : tracker) :
  lastError (watchForErrors evs st) = latest_error evs (lastError st).
Proof.
  revert st. induction evs as [|[err|] evs IH]; intros st; [done | |];
    rewrite watchForErrors_cons, IH; done.
Qed.

Lemma latest_error_successes (succs : list event) (prev : option error) :
  Forall (λ ev, ev = SuccessEvent) succs → latest_error succs prev = prev.
Proof. induction 1 as [|ev succs -> _ IH]; [done | exact IH]. Qed.

Lemma latest_error_app (evs1 evs2 : list event) (prev : option error) :
  latest_error (evs1 ++ evs2) prev = latest_error evs2 (latest_error evs1 prev).
Proof.
  revert prev. induction evs1 as [|[err|] evs1 IH]; intros prev; [done | |];
    apply IH.
Qed.

(** C10.  A success event changes the counter only, to zero, and the stored
    last error stays as it was.  So after any events, the stored last error
    is the one received most recently, however many successes came after it,
    and that is the text the status page reports. *)
Theorem success_keeps_last_error (st : tracker) :
  watchForErrors_step st SuccessEvent
  = {| consecutive := 0; lastError := lastError st |}
  ∧ (∀ evs, lastError (watchForErrors evs st)
            = latest_error evs (lastError st))
  ∧ (∀ evs err succs,
       Forall (λ ev, ev = SuccessEvent) succs →
       lastError (watchForErrors (evs ++ ErrEvent err :: succs) st) = err
       ∧ Sprintf_v
           (lastError (watchForErrors (evs ++ ErrEvent err :: succs) st))
         = Sprintf_v err).
Proof.
  split; [done |]. split; [intros evs; apply lastError_latest |].
  intros evs err succs Hs.
  assert (lastError (watchForErrors (evs ++ ErrEvent err :: succs) st) = err)
    as E; [| by rewrite E].
  rewrite lastError_latest, latest_error_app. cbn [latest_error].
  by apply latest_error_successes.
Qed.

Lemma success_keeps_last_error_witness :
  Sprintf_v
    (lastError
       (watchForErrors
          ([SuccessEvent; ErrEvent (Some (Errorf "first"))]
           ++ ErrEvent (Some (Errorf "consul unreachable"))
              :: [SuccessEvent; SuccessEvent])
          tracker_init))
  = "consul unreachable".
Proof.
  destruct (success_keeps_last_error tracker_init) as (_ & _ & H).
  destruct (H [SuccessEvent; ErrEvent (Some (Errorf "first"))]
              (Some (Errorf "consul unreachable"))
              [SuccessEvent; SuccessEvent]) as [_ Htext].
  - repeat constructor.
  - exact Htext.
Defined.

End last_error.

(** ** The status page *)
Section status_page.

Import preparer_main.

Variable json_string : string → string.

(** C9.  Whatever the request and whatever events the two watchers have
    seen, the handler answers 200 with the JSON object whose [status] field
    is the encoding of the constant [OK]; the counters and the last errors
    appear in their own four fields and nowhere else. *)
Theorem status_field_is_OK (mainEvents hookEvents : list event) (r : Request) :
  let main := watchForErrors mainEvents tracker_init in
  let hook := watchForErrors hookEvents tracker_init in
  Status (statusResponse main hook) = "OK"
  ∧ statusHandler json_string main hook r
    = {| StatusCode := StatusOK;
         Body :=
           "{" +:+ json_field "status" (json_string "OK")
           +:+ "," +:+ json_field "consecutive_hook_errors"
                         (pretty (consecutive hook))
           +:+ "," +:+ json_field "consecutive_pod_errors"
                         (pretty (consecutive main))
           +:+ "," +:+ json_field "last_hook_error"
                         (json_string (Sprintf_v (lastError hook)))
           +:+ "," +:+ json_field "last_pod_error"
                         (json_string (Sprintf_v (lastError main)))
           +:+ "}" +:+ newline |}.
Proof.
  intros main hook. split; [done |].
  unfold statusHandler, json_Marshal, statusResponse.
  cbn [Status ConsecutiveHookErrors ConsecutivePodErrors LastHookError
       LastPodError].
  by rewrite !append_assoc.
Qed.

End status_page.

Section status_page_values.

Import preparer_main.

(** The page before any event, and after three pod errors and a hook
    success, with the ASCII encoder. *)
Example status_page_initial (r : Request) :
  Body (statusHandler json_string_ascii tracker_init tracker_init r)
  = "{" +:+ quoted "status" +:+ ":" +:+ quoted "OK"
    +:+ "," +:+ quoted "consecutive_hook_errors" +:+ ":0"
    +:+ "," +:+ quoted "consecutive_pod_errors" +:+ ":0"
    +:+ "," +:+ quoted "last_hook_error" +:+ ":"
    +:+ quoted (backslash +:+ "u003cnil" +:+ backslash +:+ "u003e")
    +:+ "," +:+ quoted "last_pod_error" +:+ ":"
    +:+ quoted (backslash +:+ "u003cnil" +:+ backslash +:+ "u003e")
    +:+ "}" +:+ newline.
Proof. by vm_compute. Qed.

Example status_page_failing (r : Request) :
  Body (statusHandler json_string_ascii
          (watchForErrors (replicate 3 (ErrEvent (Some (Errorf "no consul"))))
             tracker_init)
          (watchForErrors [ErrEvent (Some (Errorf "bad hook")); SuccessEvent]
             tracker_init) r)
  = "{" +:+ quoted "status" +:+ ":" +:+ quoted "OK"
    +:+ "," +:+ quoted "consecutive_hook_errors" +:+ ":0"
    +:+ "," +:+ quoted "consecutive_pod_errors" +:+ ":3"
    +:+ "," +:+ quoted "last_hook_error" +:+ ":" +:+ quoted "bad hook"
    +:+ "," +:+ quoted "last_pod_error" +:+ ":" +:+ quoted "no consul"
    +:+ "}" +:+ newline.
Proof. by vm_compute. Qed.

End status_page_values.

(** ** Shutdown *)
Section shutdown.

Import preparer_main.

Lemma sends_then_awaits_recv (c : Chan) (tr : list action) :
  sends_then_awaits c tr → Recv c ∈ tr.
Proof.
  intros (l1 & l2 & l3 & ->).
  rewrite elem_of_app, elem_of_cons, elem_of_app, elem_of_cons. tauto.
Qed.

(** Membership in an explicit list of actions, settled entry by entry. *)
Ltac not_in_trace :=
  let H := fresh "H" in
  intros H;
  repeat (apply elem_of_cons in H as [H | H]; [by (discriminate || congruence) |]);
  by apply elem_of_nil in H.

(** C7, the claim as stated, fails for the hook loop: the main goroutine
    never receives on [quitHookUpdate], so it takes no acknowledgement from
    that loop before it returns. *)
Lemma no_hook_acknowledgement :
  (Recv quitHookUpdate ∉ main_shutdown SIGTERM)
  ∧ ¬ sends_then_awaits quitHookUpdate (main_shutdown SIGTERM).
Proof.
  assert (Recv quitHookUpdate ∉ main_shutdown SIGTERM) as Hno
    by not_in_trace.
  split; [exact Hno |]. intros H. by apply Hno, sends_then_awaits_recv.
Qed.

(** C7 (amended).  Once the termination signal has been received, the
    process sends a quit to both watch loops, to the hook loop first and
    then to the main loop; it awaits an acknowledgement from the main loop
    only, and returns after that.  Nothing is received from the hook
    loop. *)
Theorem waitForTermination_quits (received : Signal) :
  (∃ before after,
     main_shutdown received
     = before
       ++ [Send quitHookUpdate; Send quitMainUpdate; Recv quitMainUpdate]
       ++ after
     ∧ (Recv signalCh ∈ before)
     ∧ (∀ c, (Send c ∉ before) ∧ (Send c ∉ after))
     ∧ (∀ c, c ≠ signalCh → (Recv c ∉ before) ∧ (Recv c ∉ after))
     ∧ (Return ∉ before)
     ∧ last after = Some Return)
  ∧ sends_then_awaits quitMainUpdate (main_shutdown received)
  ∧ (Recv quitHookUpdate ∉ main_shutdown received).
Proof.
  split; [| split].
  - exists [Notify signalCh [SIGTERM; Interrupt]; Recv signalCh;
            Log "Stopping work"], [Log "Terminating"; Close; Return].
    split; [done |].
    split; [apply elem_of_cons; right; apply elem_of_cons; by left |].
    split; [intros c; split; not_in_trace |].
    split; [intros c Hc; split; not_in_trace |].
    split; [not_in_trace | done].
  - exists [Notify signalCh [SIGTERM; Interrupt]; Recv signalCh;
            Log "Stopping work"; Send quitHookUpdate], [],
           [Log "Terminating"; Close; Return].
    done.
  - not_in_trace.
Qed.

End shutdown.

(** ** The RC store *)
Section rc_store.

Import rcstore.

(** C1.  For a record in the store, [Delete] succeeds exactly when its
    [ReplicasDesired] is 0, and then the record is removed; with
    [ReplicasDesired > 0] it fails with the conflict error and the store,
    the record included, is as before. *)
Theorem Delete_iff_no_replicas (s : Store) (id : string) (rc : RC) :
  rcs s !! id = Some rc →
  ((Delete s id).2 = None ↔ ReplicasDesired rc = 0%N)
  ∧ ((0 < ReplicasDesired rc)%N →
     Delete s id = (s, Some Conflict) ∧ Get (Delete s id).1 id = Ok rc)
  ∧ (ReplicasDesired rc = 0%N →
     (Delete s id).2 = None ∧ Get (Delete s id).1 id = Failed NotFound).
Proof.
  intros Hrc. unfold Delete. rewrite Hrc.
  destruct (0 <? ReplicasDesired rc)%N eqn:Hn.
  - apply N.ltb_lt in Hn. split; [| split].
    + cbn [snd]. split; [done | lia].
    + intros _. split; [done |]. cbn [fst]. unfold Get. by rewrite Hrc.
    + lia.
  - apply N.ltb_ge in Hn. split; [| split].
    + cbn [snd]. split; [lia | done].
    + lia.
    + intros _. split; [done |]. cbn [fst]. unfold Get. cbn [rcs].
      by rewrite lookup_delete_eq.
Qed.

Lemma Delete_iff_no_replicas_witness :
  let rc := {| ID := "rc1"; Manifest := {| Manifest_ID := "hello";
                                           Manifest_SHA := "abc" |};
               NodeSelector := {| Selector_String := "app=hello" |};
               PodLabels := ∅; Disabled := true; ReplicasDesired := 2 |} in
  let s := {| rcs := {[ "rc1" := rc ]}; issued := {[ "rc1" ]} |} in
  Delete s "rc1" = (s, Some Conflict) ∧ Get (Delete s "rc1").1 "rc1" = Ok rc.
Proof.
  intros rc s.
  destruct (Delete_iff_no_replicas s "rc1" rc) as (_ & Hconflict & _).
  - apply lookup_singleton_eq.
  - apply Hconflict. cbn [ReplicasDesired rc]. lia.
Defined.

Lemma SetDesiredReplicas_absent (s : Store) (id : string) (n : N) :
  rcs s !! id = None → SetDesiredReplicas s id n = (s, Some NotFound).
Proof. intros Hid. unfold SetDesiredReplicas. by rewrite Hid. Qed.

Lemma Disable_absent (s : Store) (id : string) :
  rcs s !! id = None → Disable s id = (s, Some NotFound).
Proof. intros Hid. unfold Disable. by rewrite Hid. Qed.

Lemma Delete_absent (s : Store) (id : string) :
  rcs s !! id = None → Delete s id = (s, Some NotFound).
Proof. intros Hid. unfold Delete. by rewrite Hid. Qed.

Lemma Get_absent (s : Store) (id : string) :
  rcs s !! id = None → Get s id = Failed NotFound.
Proof. intros Hid. unfold Get. by rewrite Hid. Qed.

(** C4.  On an id the store does not hold, [Get], [SetDesiredReplicas],
    [Disable] and [Delete] each fail with the not-found error, and the store
    is as before. *)
Theorem absent_id_not_found (s : Store) (id : string) (n : N) :
  rcs s !! id = None →
  Get s id = Failed NotFound
  ∧ SetDesiredReplicas s id n = (s, Some NotFound)
  ∧ Disable s id = (s, Some NotFound)
  ∧ Delete s id = (s, Some NotFound).
Proof.
  intros Hid.
  by rewrite Get_absent, SetDesiredReplicas_absent, Disable_absent,
    Delete_absent.
Qed.

Lemma absent_id_not_found_witness :
  Get NewFake "BOGUSBOGUS" = Failed NotFound
  ∧ SetDesiredReplicas NewFake "BOGUSBOGUS" 1 = (NewFake, Some NotFound)
  ∧ Disable NewFake "BOGUSBOGUS" = (NewFake, Some NotFound)
  ∧ Delete NewFake "BOGUSBOGUS" = (NewFake, Some NotFound).
Proof. apply (absent_id_not_found NewFake "BOGUSBOGUS" 1). reflexivity. Defined.

Lemma Disable_found (s : Store) (id : string) (rc : RC) :
  rcs s !! id = Some rc →
  Disable s id
  = ({| rcs := <[id := set_disabled rc]> (rcs s); issued := issued s |}, None).
Proof. intros Hrc. unfold Disable. by rewrite Hrc. Qed.

Lemma SetDesiredReplicas_found (s : Store) (id : string) (n : N) (rc : RC) :
  rcs s !! id = Some rc →
  SetDesiredReplicas s id n
  = ({| rcs := <[id := set_replicas n rc]> (rcs s); issued := issued s |},
     None).
Proof. intros Hrc. unfold SetDesiredReplicas. by rewrite Hrc. Qed.

Lemma Delete_conflict (s : Store) (id : string) (rc : RC) :
  rcs s !! id = Some rc → (0 < ReplicasDesired rc)%N →
  Delete s id = (s, Some Conflict).
Proof.
  intros Hrc Hn. unfold Delete. rewrite Hrc.
  by rewrite (proj2 (N.ltb_lt _ _) Hn).
Qed.

Lemma Delete_found (s : Store) (id : string) (rc : RC) :
  rcs s !! id = Some rc → ReplicasDesired rc = 0%N →
  Delete s id = ({| rcs := delete id (rcs s); issued := issued s |}, None).
Proof. intros Hrc Hn. unfold Delete. by rewrite Hrc, Hn. Qed.

(** [Disable] twice is [Disable] once. *)
Lemma Disable_idempotent (s : Store) (id : string) (rc : RC) :
  rcs s !! id = Some rc →
  Disable (Disable s id).1 id = ((Disable s id).1, None).
Proof.
  intros Hrc. rewrite (Disable_found _ _ _ Hrc). cbn [fst].
  erewrite Disable_found by (cbn [rcs]; apply lookup_insert_eq).
  cbn [rcs issued]. by rewrite insert_insert_eq.
Qed.

(** The ID of a new record is not in use, nor was it ever handed out. *)
Lemma Create_fresh (s : Store) (manifest : pods_Manifest)
    (nodeSelector : labels_Selector) (podLabels : gmap string string) :
  let rc := (Create s manifest nodeSelector podLabels).2.1 in
  rcs s !! ID rc = None ∧ ID rc ∉ issued s.
Proof.
  cbn. pose proof (is_fresh (dom (rcs s) ∪ issued s)) as Hf.
  split; [apply not_elem_of_dom |]; set_solver.
Qed.

Lemma checkFieldsSame_refl (rc : RC) : orchestrator.checkFieldsSame rc rc = 0.
Proof.
  unfold orchestrator.checkFieldsSame, orchestrator.tryMatch.
  repeat case_bool_decide; done.
Qed.

(** C8.  [Create] succeeds, and a [Get] on the new record's ID right after
    it succeeds with a record equal to the one [Create] returned, field for
    field: ID, manifest, node selector, pod labels, disabled flag and
    replicas desired; [checkFieldsSame] counts no mismatch. *)
Theorem Create_then_Get (s : Store) (manifest : pods_Manifest)
    (nodeSelector : labels_Selector) (podLabels : gmap string string) :
  ∃ s' created check,
    Create s manifest nodeSelector podLabels = (s', (created, None))
    ∧ Get s' (ID created) = Ok check
    ∧ ID check = ID created
    ∧ Manifest check = Manifest created
    ∧ NodeSelector check = NodeSelector created
    ∧ PodLabels check = PodLabels created
    ∧ Disabled check = Disabled created
    ∧ ReplicasDesired check = ReplicasDesired created
    ∧ orchestrator.checkFieldsSame created check = 0.
Proof.
  eexists _, _, _. split; [reflexivity |].
  split; [unfold Get; cbn [rcs ID]; by rewrite lookup_insert_eq |].
  repeat (split; [reflexivity |]). apply checkFieldsSame_refl.
Qed.

End rc_store.

(** ** The mini-orchestrator against the store *)
Section orchestrator_runs.

Import rcstore orchestrator.

Lemma bind_call {A B : Type} (op : Store → Store * A) (k : A → M B)
    (s : Store) :
  (call op ≫= k) s = k (op s).2 (op s).1.
Proof. unfold mbind, M_bind, call. by destruct (op s). Qed.

Lemma bind_query {A B : Type} (op : Store → A) (k : A → M B) (s : Store) :
  (query op ≫= k) s = k (op s) s.
Proof. reflexivity. Qed.

Lemma existsb_listed (m : gmap string RC) (id : string) (rc : RC) :
  m !! id = Some rc →
  existsb (λ listed, bool_decide (ID listed = ID rc)) (snd <$> map_to_list m)
  = true.
Proof.
  intros Hrc. apply existsb_exists. exists rc. split.
  - apply list_elem_of_In, list_elem_of_fmap. exists (id, rc).
    split; [done |]. by apply elem_of_map_to_list.
  - by apply bool_decide_eq_true_2.
Qed.

(** On a store that does not hold the [BOGUSBOGUS] id, the checks of
    [makeRcFields] all pass: no [log.Fatalf] is reached, and the record
    returned is a new one, enabled and with no replicas desired. *)
Lemma makeRcFields_store_done (s : Store) (manifest : pods_Manifest)
    (nodeSelector : labels_Selector) (podLabels : gmap string string) :
  rcs s !! BOGUS = None →
  ∃ s' fields,
    makeRcFields_store manifest nodeSelector podLabels s = (s', Done fields)
    ∧ rcs s' = <[ID fields := fields]> (rcs s)
    ∧ rcs s !! ID fields = None
    ∧ Manifest fields = manifest ∧ NodeSelector fields = nodeSelector
    ∧ PodLabels fields = podLabels
    ∧ Disabled fields = false ∧ ReplicasDesired fields = 0%N.
Proof.
  intros Hb.
  unfold makeRcFields_store.
  rewrite bind_call, SetDesiredReplicas_absent by done. cbn [fst snd].
  rewrite bind_call, Disable_absent by done. cbn [fst snd].
  rewrite bind_call, Delete_absent by done. cbn [fst snd].
  rewrite bind_call.
  pose proof (Create_fresh s manifest nodeSelector podLabels) as [Hf1 Hf1'].
  destruct (Create s manifest nodeSelector podLabels) as [s1 [rc1 e1]] eqn:Hc1.
  assert (e1 = None ∧ rcs s1 = <[ID rc1 := rc1]> (rcs s)
          ∧ issued s1 = {[ID rc1]} ∪ issued s
          ∧ ReplicasDesired rc1 = 0%N) as (-> & Hs1 & Hi1 & Hr1).
  { unfold Create in Hc1. by injection Hc1 as <- <- <-. }
  cbn [fst snd] in *.
  rewrite bind_call. unfold Delete at 1 2. rewrite Hs1, lookup_insert_eq, Hr1.
  cbn [N.ltb N.compare fst snd].
  set (s2 := {| rcs := delete (ID rc1) (<[ID rc1:=rc1]> (rcs s));
                issued := issued s1 |}).
  assert (rcs s2 = rcs s) as Hs2.
  { subst s2. cbn [rcs]. by rewrite delete_insert_id. }
  rewrite bind_call.
  pose proof (Create_fresh s2 manifest nodeSelector podLabels) as [Hf2 _].
  destruct (Create s2 manifest nodeSelector podLabels) as [s3 [rc2 e2]] eqn:Hc2.
  assert (e2 = None ∧ rcs s3 = <[ID rc2 := rc2]> (rcs s2)
          ∧ Manifest rc2 = manifest ∧ NodeSelector rc2 = nodeSelector
          ∧ PodLabels rc2 = podLabels ∧ Disabled rc2 = false
          ∧ ReplicasDesired rc2 = 0%N) as (-> & Hs3 & Hfields).
  { unfold Create in Hc2. by injection Hc2 as <- <- <-. }
  cbn [fst snd] in *.
  rewrite bind_query. unfold Get. rewrite Hs3, lookup_insert_eq.
  rewrite checkFieldsSame_refl, bool_decide_eq_true_2 by done.
  rewrite bind_query. unfold List.
  rewrite (existsb_listed _ (ID rc2) rc2) by (by rewrite Hs3, lookup_insert_eq).
  cbn [negb]. exists s3, rc2. rewrite Hs3, Hs2 in *. done.
Qed.

(** The first run of the orchestrator's checks, on the fresh fake store. *)
Lemma makeRcFields_NewFake (manifest : pods_Manifest)
    (nodeSelector : labels_Selector) (podLabels : gmap string string) :
  ∃ s' fields,
    makeRcFields_store manifest nodeSelector podLabels NewFake
    = (s', Done fields)
    ∧ rcs s' = {[ID fields := fields]}.
Proof.
  destruct (makeRcFields_store_done NewFake manifest nodeSelector podLabels)
    as (s' & fields & Hrun & Hs' & _); [done |].
  by exists s', fields.
Qed.

(** The end of [main] on a record that has replicas desired: disabling
    works, the first [Delete] is refused, setting the count to 0 works, and
    the second [Delete] removes the record. *)
Lemma main_teardown_done (s : Store) (id : string) (rc : RC) :
  rcs s !! id = Some rc → (0 < ReplicasDesired rc)%N →
  ∃ s', main_teardown id s = (s', Done ()) ∧ rcs s' = delete id (rcs s).
Proof.
  intros Hrc Hn. unfold main_teardown.
  rewrite bind_call, (Disable_found _ _ _ Hrc). cbn [fst snd].
  rewrite bind_call.
  erewrite Delete_conflict;
    [| cbn [rcs]; apply lookup_insert_eq | exact Hn].
  cbn [fst snd].
  rewrite bind_call.
  erewrite SetDesiredReplicas_found by (cbn [rcs]; apply lookup_insert_eq).
  cbn [fst snd].
  rewrite bind_call.
  erewrite Delete_found; [| cbn [rcs]; apply lookup_insert_eq | done].
  cbn [fst snd]. eexists. split; [reflexivity |]. cbn [rcs].
  by rewrite insert_insert_eq, delete_insert_eq.
Qed.

(** With [--nodes 0] the record has no replicas desired when [main] tries
    the delete that is meant to be refused, and the run stops there. *)
Lemma main_teardown_zero_nodes (s : Store) (id : string) (rc : RC) :
  rcs s !! id = Some rc → ReplicasDesired rc = 0%N →
  ∃ s', main_teardown id s
        = (s', Fatal "Delete succeeded, should have errored!").
Proof.
  intros Hrc Hn. unfold main_teardown.
  rewrite bind_call, (Disable_found _ _ _ Hrc). cbn [fst snd].
  rewrite bind_call.
  erewrite Delete_found; [| cbn [rcs]; apply lookup_insert_eq | done].
  cbn [fst snd]. by eexists.
Qed.

(** A run on the fresh fake store: the first record takes the ID [0] and is
    deleted again, the record returned takes the ID [1]. *)
Example makeRcFields_NewFake_value :
  (makeRcFields_store
     {| Manifest_ID := "hello"; Manifest_SHA := "0a1b2c" |}
     {| Selector_String := "app=hello" |}
     {[ "mini-orchestrator" := "true" ]} NewFake).2
  = Done {| ID := "1";
            Manifest := {| Manifest_ID := "hello"; Manifest_SHA := "0a1b2c" |};
            NodeSelector := {| Selector_String := "app=hello" |};
            PodLabels := {[ "mini-orchestrator" := "true" ]};
            Disabled := false; ReplicasDesired := 0 |}.
Proof. by vm_compute. Qed.

End orchestrator_runs.


(** * Further properties *)

(** ** Keys: when they exist and when they are distinct *)
Section key_facts.

Import kp.

Lemma nodePath_succeeds_iff (podPrefix nodeName : string) :
  (nodePath podPrefix nodeName).2 = None
  ↔ podPrefix = HOOK_TREE ∨ nodeName ≠ "".
Proof.
  unfold nodePath. case_bool_decide as Hh; [cbn [snd]; tauto |].
  case_bool_decide as Hn; cbn [snd]; split; try done; tauto.
Qed.

Lemma podPath_succeeds_iff (podPrefix nodeName podId : string) :
  (podPath podPrefix nodeName podId).2 = None
  ↔ (podPrefix = HOOK_TREE ∨ nodeName ≠ "") ∧ podId ≠ "".
Proof.
  rewrite <- nodePath_succeeds_iff. unfold podPath.
  destruct (nodePath podPrefix nodeName) as [np [err|]]; cbn [snd].
  - split; [done | by intros [? _]].
  - case_bool_decide; cbn [snd]; split; try done; tauto.
Qed.

(** The three functions fail on the same inputs, whatever the tree is
    called: a key exists exactly when the pod id is given and, off the hooks
    tree, the node name is given too. *)
Theorem PodLockPath_succeeds_iff (podPrefix nodeName podId : string) :
  (PodLockPath podPrefix nodeName podId).2 = None
  ↔ (podPrefix = HOOK_TREE ∨ nodeName ≠ "") ∧ podId ≠ "".
Proof.
  rewrite <- podPath_succeeds_iff. unfold PodLockPath.
  by destruct (podPath podPrefix nodeName podId) as [p [err|]].
Qed.

(** A key is never handed out with an error, and never withheld without
    one: for each of the three functions the returned path is empty exactly
    when the error is not [nil]. *)
Theorem key_empty_iff_error (podPrefix nodeName podId : string) :
  ((nodePath podPrefix nodeName).1 = ""
   ↔ (nodePath podPrefix nodeName).2 ≠ None)
  ∧ ((podPath podPrefix nodeName podId).1 = ""
     ↔ (podPath podPrefix nodeName podId).2 ≠ None)
  ∧ ((PodLockPath podPrefix nodeName podId).1 = ""
     ↔ (PodLockPath podPrefix nodeName podId).2 ≠ None).
Proof.
  split; [| split].
  - destruct (nodePath podPrefix nodeName) as [np [err|]] eqn:E; cbn [fst snd].
    + assert (np = "") as ->; [| done].
      revert E. unfold nodePath. repeat case_bool_decide; congruence.
    + apply nodePath_nonempty in E. split; done.
  - destruct (podPath podPrefix nodeName podId) as [p [err|]] eqn:E;
      cbn [fst snd].
    + assert (p = "") as ->; [| done].
      revert E. unfold podPath.
      destruct (nodePath podPrefix nodeName) as [np [err'|]];
        repeat case_bool_decide; congruence.
    + apply podPath_nonempty in E. split; done.
  - destruct (PodLockPath podPrefix nodeName podId) as [p [err|]] eqn:E;
      cbn [fst snd].
    + assert (p = "") as ->; [| done].
      revert E. unfold PodLockPath.
      destruct (podPath podPrefix nodeName podId) as [q [err'|]]; congruence.
    + revert E. unfold PodLockPath.
      destruct (podPath podPrefix nodeName podId) as [q [err'|]] eqn:Eq;
        [done |].
      intros E. apply (f_equal fst) in E. cbn [fst] in E. rewrite <- E.
      rewrite Join_two by done. split; [| done].
      intros H. by apply Clean_nonempty in H.
Qed.

End key_facts.

Section key_collisions.

Import kp.

Lemma append_slash_inj (a a' b b' : string) :
  has_slash a = false → has_slash a' = false →
  a +:+ "/" +:+ b = a' +:+ "/" +:+ b' → a = a' ∧ b = b'.
Proof.
  revert a'. induction a as [|c a IH]; intros [|c' a'] Ha Ha' E.
  - rewrite !append_nil_l in E. by injection E.
  - rewrite append_nil_l, !append_cons in E. injection E as <- _.
    by simpl in Ha'.
  - rewrite append_nil_l, !append_cons in E. injection E as -> _.
    by simpl in Ha.
  - rewrite !append_cons in E. injection E as -> E.
    simpl in Ha, Ha'. apply orb_false_iff in Ha as [_ Ha].
    apply orb_false_iff in Ha' as [_ Ha'].
    destruct (IH a' Ha Ha' E) as [-> ->]. done.
Qed.

Lemma plain_no_slash (e : string) : plain e = true → has_slash e = false.
Proof. by intros (? & _)%plain_inv. Qed.

(** The key of a pod on one of the three trees, for plain names, spelled
    out: the node name is part of it except on the hooks tree. *)
Lemma podPath_form (podPrefix nodeName podId : string) :
  podPrefix = INTENT_TREE ∨ podPrefix = REALITY_TREE ∨ podPrefix = HOOK_TREE →
  plain nodeName = true → plain podId = true →
  podPath podPrefix nodeName podId
  = (podPrefix +:+ "/"
     +:+ (if bool_decide (podPrefix = HOOK_TREE) then podId
          else nodeName +:+ "/" +:+ podId), None).
Proof.
  intros Ht Hn Hp. case_bool_decide as Hh.
  - subst podPrefix.
    apply (podPath_plain _ _ _ "hooks" (nodePath_hooks nodeName));
      by apply plain_path_elem.
  - assert (podPrefix = INTENT_TREE ∨ podPrefix = REALITY_TREE) as Ht'
      by tauto.
    pose proof (nodePath_plain podPrefix nodeName Ht'
                  (plain_path_elem _ Hn)) as Hnp.
    rewrite (podPath_plain _ _ _ _ Hnp).
    + by rewrite append_assoc.
    + apply plain_path_join; [apply tree_plain; tauto |].
      by apply plain_path_elem.
    + by apply plain_path_elem.
Qed.

Lemma tree_no_slash (podPrefix : string) :
  podPrefix = INTENT_TREE ∨ podPrefix = REALITY_TREE ∨ podPrefix = HOOK_TREE →
  has_slash podPrefix = false.
Proof. by intros [-> | [-> | ->]]. Qed.

Lemma PodLockPath_form (podPrefix nodeName podId : string) :
  podPrefix = INTENT_TREE ∨ podPrefix = REALITY_TREE ∨ podPrefix = HOOK_TREE →
  plain nodeName = true → plain podId = true →
  PodLockPath podPrefix nodeName podId
  = (LOCK_TREE +:+ "/" +:+ (podPath podPrefix nodeName podId).1, None).
Proof.
  intros Ht Hn Hp. pose proof (podPath_form _ _ _ Ht Hn Hp) as Hpp.
  rewrite (PodLockPath_of_plain _ _ _ _ Hpp); [by rewrite Hpp |].
  apply plain_path_join; [apply tree_plain; tauto |].
  case_bool_decide; [by apply plain_path_elem |].
  apply plain_path_join; by apply plain_path_elem.
Qed.

(** Two pods get the same key, or the same lock key, only when they are the
    same pod: same tree, same pod id and, off the hooks tree, same node.
    This is for plain names on the three trees. *)
Theorem keys_tell_pods_apart (t1 n1 p1 t2 n2 p2 : string) :
  t1 = INTENT_TREE ∨ t1 = REALITY_TREE ∨ t1 = HOOK_TREE →
  t2 = INTENT_TREE ∨ t2 = REALITY_TREE ∨ t2 = HOOK_TREE →
  plain n1 = true → plain p1 = true → plain n2 = true → plain p2 = true →
  podPath t1 n1 p1 = podPath t2 n2 p2
  ∨ PodLockPath t1 n1 p1 = PodLockPath t2 n2 p2 →
  t1 = t2 ∧ p1 = p2 ∧ (t1 ≠ HOOK_TREE → n1 = n2).
Proof.
  intros Ht1 Ht2 Hn1 Hp1 Hn2 Hp2 Heq.
  assert (podPath t1 n1 p1 = podPath t2 n2 p2) as E.
  { destruct Heq as [E | E]; [done |].
    rewrite !PodLockPath_form in E by done.
    apply (f_equal fst) in E. cbn [fst] in E.
    apply append_slash_inj in E as [_ E]; [| done..].
    rewrite !podPath_form in * by done. cbn [fst] in E. by rewrite E. }
  rewrite !podPath_form in E by done.
  apply (f_equal fst) in E. cbn [fst] in E.
  apply append_slash_inj in E as [<- E]; [| by apply tree_no_slash..].
  split; [done |]. case_bool_decide as Hh.
  - by split.
  - apply append_slash_inj in E as [-> ->]; [done | by apply plain_no_slash..].
Qed.

Lemma keys_tell_pods_apart_witness :
  INTENT_TREE = INTENT_TREE ∧ "mypod" = "mypod"
  ∧ (INTENT_TREE ≠ HOOK_TREE → "web01" = "web01").
Proof.
  apply (keys_tell_pods_apart INTENT_TREE "web01" "mypod"
           INTENT_TREE "web01" "mypod");
    try reflexivity; try (left; reflexivity).
Defined.

(** A lock key is never the key of a pod: for plain names on the three
    trees the two functions have no result in common. *)
Theorem lock_keys_apart_from_pod_keys (t1 n1 p1 t2 n2 p2 : string) :
  t1 = INTENT_TREE ∨ t1 = REALITY_TREE ∨ t1 = HOOK_TREE →
  t2 = INTENT_TREE ∨ t2 = REALITY_TREE ∨ t2 = HOOK_TREE →
  plain n1 = true → plain p1 = true → plain n2 = true → plain p2 = true →
  PodLockPath t1 n1 p1 ≠ podPath t2 n2 p2.
Proof.
  intros Ht1 Ht2 Hn1 Hp1 Hn2 Hp2 E.
  rewrite PodLockPath_form, !podPath_form in E by done.
  apply (f_equal fst) in E. cbn [fst] in E.
  apply append_slash_inj in E as [E _]; [| done | by apply tree_no_slash].
  by destruct Ht2 as [-> | [-> | ->]].
Qed.

Lemma lock_keys_apart_from_pod_keys_witness :
  PodLockPath HOOK_TREE "web01" "mypod" ≠ podPath REALITY_TREE "lock" "hooks".
Proof.
  apply lock_keys_apart_from_pod_keys;
    try reflexivity; auto.
Defined.

(** Names with a slash in them are not kept apart: a node [a/b] with pod
    [c] has the key of node [a] with pod [b/c]. *)
Theorem slash_in_names_collides (podPrefix a b c : string) :
  podPrefix = INTENT_TREE ∨ podPrefix = REALITY_TREE →
  plain a = true → plain b = true → plain c = true →
  podPath podPrefix (a +:+ "/" +:+ b) c = podPath podPrefix a (b +:+ "/" +:+ c)
  ∧ PodLockPath podPrefix (a +:+ "/" +:+ b) c
    = PodLockPath podPrefix a (b +:+ "/" +:+ c).
Proof.
  intros Ht Ha Hb Hc.
  assert (podPath podPrefix (a +:+ "/" +:+ b) c
          = podPath podPrefix a (b +:+ "/" +:+ c)) as E.
  { assert (plain_path podPrefix) as Htp by (apply tree_plain; tauto).
    pose proof (plain_path_elem _ Ha) as Ha'.
    pose proof (plain_path_elem _ Hb) as Hb'.
    pose proof (plain_path_elem _ Hc) as Hc'.
    rewrite (podPath_plain _ _ _ _
               (nodePath_plain _ _ Ht (plain_path_join _ _ Ha' Hb')))
      by eauto using plain_path_join.
    rewrite (podPath_plain _ _ _ _ (nodePath_plain _ _ Ht Ha'))
      by eauto using plain_path_join.
    by rewrite !append_assoc. }
  split; [done |]. unfold PodLockPath. by rewrite E.
Qed.

Lemma slash_in_names_collides_witness :
  podPath INTENT_TREE "dc1/web01" "mypod" = podPath INTENT_TREE "dc1" "web01/mypod".
Proof.
  apply (slash_in_names_collides INTENT_TREE "dc1" "web01" "mypod");
    try reflexivity. by left.
Defined.

End key_collisions.

(** ** The error counter as the length of the current run of failures *)
Section failure_streak.

Import preparer_main.

Lemma step_bounds (st : tracker) (ev : event) :
  0 ≤ consecutive st < int_max →
  0 ≤ consecutive (watchForErrors_step st ev) ≤ consecutive st + 1.
Proof.
  intros Hc. destruct ev as [err|]; cbn [watchForErrors_step consecutive].
  - rewrite int_wrap_id; unfold int_min, int_max in *; lia.
  - lia.
Qed.

Lemma run_bounds (evs : list event) (st : tracker) :
  0 ≤ consecutive st →
  consecutive st + Z.of_nat (length evs) ≤ int_max →
  0 ≤ consecutive (watchForErrors evs st)
    ≤ consecutive st + Z.of_nat (length evs).
Proof.
  revert st. induction evs as [|ev evs IH]; intros st H0 Hmax.
  - cbn. lia.
  - rewrite watchForErrors_cons. cbn [length] in *.
    pose proof (step_bounds st ev) as Hs.
    specialize (IH (watchForErrors_step st ev)). lia.
Qed.

(** As long as fewer than [2^63] events have been received, the counter is
    never negative and never more than the number of events. *)
Theorem counter_bounds (evs : list event) :
  Z.of_nat (length evs) ≤ int_max →
  0 ≤ consecutive (watchForErrors evs tracker_init) ≤ Z.of_nat (length evs).
Proof.
  intros Hlen. pose proof (run_bounds evs tracker_init) as H.
  cbn [tracker_init consecutive] in H. lia.
Qed.

Lemma counter_bounds_witness :
  0 ≤ consecutive
        (watchForErrors
           [ErrEvent None; SuccessEvent; ErrEvent (Some (Errorf "x"))]
           tracker_init) ≤ 3.
Proof.
  apply (counter_bounds
           [ErrEvent None; SuccessEvent; ErrEvent (Some (Errorf "x"))]).
  by vm_compute.
Defined.

Lemma run_of_errors (errs : list event) (st : tracker) :
  Forall (λ ev, ev ≠ SuccessEvent) errs →
  0 ≤ consecutive st →
  consecutive st + Z.of_nat (length errs) ≤ int_max →
  consecutive (watchForErrors errs st)
  = consecutive st + Z.of_nat (length errs).
Proof.
  intros Herrs. revert st.
  induction Herrs as [|ev errs Hev _ IH]; intros st H0 Hmax.
  - cbn. lia.
  - rewrite watchForErrors_cons. cbn [length] in *.
    destruct ev as [err|]; [| done].
    rewrite IH; cbn [watchForErrors_step consecutive];
      rewrite int_wrap_id; unfold int_min, int_max in *; lia.
Qed.

(** The counter is the length of the current run of failures: after a
    success followed by errors only, or after errors only since the start,
    it is the number of those errors, whatever came before the success.  The
    errors may differ, and may be [nil]. *)
Theorem counter_is_streak (before errs : list event) (st : tracker) :
  Forall (λ ev, ev ≠ SuccessEvent) errs →
  Z.of_nat (length errs) ≤ int_max →
  consecutive (watchForErrors (before ++ SuccessEvent :: errs) st)
  = Z.of_nat (length errs)
  ∧ consecutive (watchForErrors errs tracker_init) = Z.of_nat (length errs).
Proof.
  intros Herrs Hlen. split.
  - rewrite watchForErrors_app, watchForErrors_cons.
    rewrite run_of_errors; cbn [watchForErrors_step consecutive]; (done || lia).
  - rewrite run_of_errors; cbn [tracker_init consecutive]; (done || lia).
Qed.

Lemma counter_is_streak_witness :
  consecutive
    (watchForErrors
       ([ErrEvent (Some (Errorf "a")); ErrEvent (Some (Errorf "b"))]
        ++ SuccessEvent :: [ErrEvent (Some (Errorf "c")); ErrEvent None])
       {| consecutive := 7; lastError := None |})
  = 2.
Proof.
  refine (proj1 (counter_is_streak
                   [ErrEvent (Some (Errorf "a")); ErrEvent (Some (Errorf "b"))]
                   [ErrEvent (Some (Errorf "c")); ErrEvent None]
                   {| consecutive := 7; lastError := None |} _ _)).
  - repeat constructor; discriminate.
  - by vm_compute.
Defined.

(** The page shows a zero counter exactly for a loop that is not failing
    right now: one that has reported nothing yet, or whose latest report was
    a success.  This is for histories of fewer than [2^63] events. *)
Theorem counter_zero_iff_not_failing (evs : list event) :
  Z.of_nat (length evs) ≤ int_max →
  consecutive (watchForErrors evs tracker_init) = 0
  ↔ evs = [] ∨ last evs = Some SuccessEvent.
Proof.
  intros Hlen. destruct evs as [|ev0 evs0] using rev_ind; [by split; auto |].
  clear IHevs0. rewrite length_app in Hlen. cbn [length] in Hlen.
  rewrite watchForErrors_snoc, last_snoc.
  destruct ev0 as [err|].
  - pose proof (run_bounds evs0 tracker_init) as Hb.
    cbn [tracker_init consecutive] in Hb.
    cbn [watchForErrors_step consecutive].
    rewrite int_wrap_id by (unfold int_min, int_max in *; lia).
    split; [lia |]. intros [H | H]; [by destruct evs0 | done].
  - split; [by right | done].
Qed.

Lemma counter_zero_iff_not_failing_witness :
  consecutive
    (watchForErrors [ErrEvent (Some (Errorf "x")); SuccessEvent] tracker_init)
  = 0.
Proof.
  apply (counter_zero_iff_not_failing
           [ErrEvent (Some (Errorf "x")); SuccessEvent]).
  - by vm_compute.
  - right. reflexivity.
Defined.

End failure_streak.

(** ** What [checkFieldsSame] tells *)
Section fields_same.

Import rcstore orchestrator.

(** [checkFieldsSame] counts no mismatch exactly when the two records agree
    on the six things it looks at: the ID, the manifest's ID, the strings of
    the node selector and of the pod labels, the disabled flag and the
    replicas desired. *)
Theorem checkFieldsSame_zero_iff (a b : RC) :
  checkFieldsSame a b = 0
  ↔ ID a = ID b
    ∧ Manifest_ID (Manifest a) = Manifest_ID (Manifest b)
    ∧ Selector_String (NodeSelector a) = Selector_String (NodeSelector b)
    ∧ Set_String (PodLabels a) = Set_String (PodLabels b)
    ∧ Disabled a = Disabled b
    ∧ ReplicasDesired a = ReplicasDesired b.
Proof.
  unfold checkFieldsSame, tryMatch.
  repeat case_bool_decide; split; try lia; try tauto; intros _; try done;
    repeat split; try done; by apply dec_stable.
Qed.

Lemma tryMatch_sym (a b desc : string) : tryMatch a b desc = tryMatch b a desc.
Proof. unfold tryMatch. repeat case_bool_decide; congruence. Qed.

Lemma tryMatch_bounds (a b desc : string) : 0 ≤ tryMatch a b desc ≤ 1.
Proof. unfold tryMatch. case_bool_decide; lia. Qed.

(** The count is between 0 and 6 and does not depend on the order of the
    two records. *)
Theorem checkFieldsSame_sym_bounded (a b : RC) :
  0 ≤ checkFieldsSame a b ≤ 6 ∧ checkFieldsSame a b = checkFieldsSame b a.
Proof.
  unfold checkFieldsSame. cbv zeta. split.
  - pose proof (tryMatch_bounds (ID a) (ID b) "RC ID").
    pose proof (tryMatch_bounds (Manifest_ID (Manifest a))
                  (Manifest_ID (Manifest b)) "Manifest ID").
    pose proof (tryMatch_bounds (Selector_String (NodeSelector a))
                  (Selector_String (NodeSelector b)) "Node Selector").
    pose proof (tryMatch_bounds (Set_String (PodLabels a))
                  (Set_String (PodLabels b)) "Node Selector").
    repeat case_bool_decide; lia.
  - rewrite (tryMatch_sym (ID a)), (tryMatch_sym (Manifest_ID (Manifest a))),
      (tryMatch_sym (Selector_String (NodeSelector a))),
      (tryMatch_sym (Set_String (PodLabels a))).
    repeat case_bool_decide; congruence.
Qed.

(** The manifest is compared by its ID only: a record whose manifest has
    another digest still counts as the same. *)
Theorem checkFieldsSame_ignores_digest (a : RC) (sha : string) :
  checkFieldsSame a
    {| ID := ID a;
       Manifest := {| Manifest_ID := Manifest_ID (Manifest a);
                      Manifest_SHA := sha |};
       NodeSelector := NodeSelector a; PodLabels := PodLabels a;
       Disabled := Disabled a; ReplicasDesired := ReplicasDesired a |}
  = 0.
Proof.
  unfold checkFieldsSame, tryMatch. cbn [ID Manifest Manifest_ID NodeSelector
    PodLabels Disabled ReplicasDesired].
  repeat case_bool_decide; done.
Qed.

End fields_same.

(** ** The mini-orchestrator against any store *)
Section any_store_runs.

Import rcstore orchestrator orchestrator_any.

Context {S : Type} (ops : StoreOps S).

(** What a store has done when [makeRcFields] accepts it: it has refused
    to set replicas on, to disable and to delete the id [BOGUSBOGUS]; it has
    created a record and deleted it again; and the record returned is the
    one it created next, which [Get] has given back with no mismatch and
    whose ID [List] has listed. *)
Theorem makeRcFields_on_accepts (manifest : pods_Manifest)
    (nodeSelector : labels_Selector) (podLabels : gmap string string)
    (s s' : S) (fields : RC) :
  makeRcFields_on ops manifest nodeSelector podLabels s = (s', Done fields) →
  ∃ s1 s2 s3 s4 s5 s6 s7 e1 e2 e3 first check listeds,
    store_SetDesiredReplicas ops s BOGUS 1 = (s1, Some e1)
    ∧ store_Disable ops s1 BOGUS = (s2, Some e2)
    ∧ store_Delete ops s2 BOGUS = (s3, Some e3)
    ∧ store_Create ops s3 manifest nodeSelector podLabels
      = (s4, (first, None))
    ∧ store_Delete ops s4 (ID first) = (s5, None)
    ∧ store_Create ops s5 manifest nodeSelector podLabels
      = (s6, (fields, None))
    ∧ store_Get ops s6 (ID fields) = (s7, (check, None))
    ∧ checkFieldsSame fields check = 0
    ∧ store_List ops s7 = (s', (listeds, None))
    ∧ ∃ listed, listed ∈ listeds ∧ ID listed = ID fields.
Proof.
  unfold makeRcFields_on, mbind, run_bind, invoke, fatal, mret, run_ret.
  intros H.
  destruct (store_SetDesiredReplicas ops s BOGUS 1) as [s1 [e1|]] eqn:E1;
    [| done].
  destruct (store_Disable ops s1 BOGUS) as [s2 [e2|]] eqn:E2; [| done].
  destruct (store_Delete ops s2 BOGUS) as [s3 [e3|]] eqn:E3; [| done].
  destruct (store_Create ops s3 manifest nodeSelector podLabels)
    as [s4 [first [?|]]] eqn:E4; [done |].
  destruct (store_Delete ops s4 (ID first)) as [s5 [?|]] eqn:E5; [done |].
  destruct (store_Create ops s5 manifest nodeSelector podLabels)
    as [s6 [fields' [?|]]] eqn:E6; [done |].
  destruct (store_Get ops s6 (ID fields')) as [s7 [check [?|]]] eqn:E7;
    [done |].
  case_bool_decide as Hsame; [| done].
  destruct (store_List ops s7) as [s8 [listeds [?|]]] eqn:E8; [done |].
  destruct (existsb _ listeds) eqn:Hfound; [| done].
  cbn [negb] in H. injection H as <- <-.
  apply existsb_exists in Hfound as (listed & Hin & Hid).
  apply bool_decide_eq_true in Hid. apply list_elem_of_In in Hin.
  by eexists s1, s2, s3, s4, s5, s6, s7, e1, e2, e3, first, check, listeds;
    eauto 15.
Qed.

End any_store_runs.

Section model_store_runs.

Import rcstore orchestrator orchestrator_any.

(** The run against the modelled store is the run against any store, taken
    at that implementation. *)
Lemma makeRcFields_store_on_model (manifest : pods_Manifest)
    (nodeSelector : labels_Selector) (podLabels : gmap string string)
    (s : Store) :
  makeRcFields_store manifest nodeSelector podLabels s
  = makeRcFields_on model_ops manifest nodeSelector podLabels s.
Proof.
  unfold makeRcFields_store, makeRcFields_on.
  unfold mbind, M_bind, run_bind, call, query, invoke, Fatalf, fatal, mret,
    M_ret, run_ret.
  cbn [model_ops store_SetDesiredReplicas store_Disable store_Delete
       store_Create store_Get store_List].
  change (Z.to_N 1) with 1%N.
  destruct (SetDesiredReplicas s BOGUS 1) as [s1 [e1|]]; cbn [fmap option_fmap option_map]; [| done].
  destruct (Disable s1 BOGUS) as [s2 [e2|]]; cbn [fmap option_fmap option_map]; [| done].
  destruct (Delete s2 BOGUS) as [s3 [e3|]]; cbn [fmap option_fmap option_map]; [| done].
  destruct (Create s3 manifest nodeSelector podLabels) as [s4 [first [e4|]]];
    cbn [fmap option_fmap option_map]; [done |].
  destruct (Delete s4 (ID first)) as [s5 [e5|]];
    cbn [fmap option_fmap option_map]; [done |].
  destruct (Create s5 manifest nodeSelector podLabels) as [s6 [fields [e6|]]];
    cbn [fmap option_fmap option_map]; [done |].
  destruct (Get s6 (ID fields)) as [check | e7]; [| done].
  case_bool_decide; [| done].
  by destruct (List s6) as [listeds | e8].
Qed.

Lemma main_teardown_on_model (id : string) (s : Store) :
  main_teardown id s = main_teardown_on model_ops id s.
Proof.
  unfold main_teardown, main_teardown_on.
  unfold mbind, M_bind, run_bind, call, invoke, Fatalf, fatal, mret,
    M_ret, run_ret.
  cbn [model_ops store_SetDesiredReplicas store_Disable store_Delete].
  change (Z.to_N 0) with 0%N.
  destruct (Disable s id) as [s1 [e1|]]; cbn [fmap option_fmap option_map]; [done |].
  destruct (Delete s1 id) as [s2 [e2|]]; cbn [fmap option_fmap option_map]; [| done].
  destruct (SetDesiredReplicas s2 id 0) as [s3 [e3|]];
    cbn [fmap option_fmap option_map]; [done |].
  by destruct (Delete s3 id) as [s4 [e4|]].
Qed.

End model_store_runs.

Section store_loop.

Import rcstore orchestrator orchestrator_any.

Variables (manifest : pods_Manifest) (nodeSelector : labels_Selector)
  (podLabels : gmap string string).

(** When [makeRcFields] returns, it returns one record for each store, in
    the order of the stores, and each store has passed its checks: so
    [fields[1]] in [main], after the call with two stores, is in range and
    is the record of the second store. *)
Theorem makeRcFields_loop_done (stores stores' : list AnyStore)
    (rcs : list RC) :
  makeRcFields_loop manifest nodeSelector podLabels stores
  = (stores', Done rcs) →
  length rcs = length stores
  ∧ length stores' = length stores
  ∧ ∀ (i : nat) (st : AnyStore),
      stores !! i = Some st →
      ∃ (s' : state_type st) (fields : RC),
        makeRcFields_on (methods st) manifest nodeSelector podLabels (state st)
        = (s', Done fields)
        ∧ rcs !! i = Some fields
        ∧ stores' !! i = Some (with_state st s').
Proof.
  revert stores' rcs. induction stores as [|st stores IH]; intros stores' rcs.
  - cbn. intros [= <- <-]. by repeat split.
  - cbn [makeRcFields_loop].
    destruct (makeRcFields_on (methods st) manifest nodeSelector podLabels
                (state st)) as [s' [fields | msg]] eqn:Hst; [| done].
    destruct (makeRcFields_loop manifest nodeSelector podLabels stores)
      as [rest' [rcs' | msg]] eqn:Hrest; [| done].
    intros [= <- <-]. destruct (IH rest' rcs' eq_refl) as (Hl1 & Hl2 & Hall).
    cbn [length]. split; [by rewrite Hl1 |]. split; [by rewrite Hl2 |].
    intros [|i] st' Hi.
    + injection Hi as <-. by exists s', fields.
    + by apply Hall.
Qed.

(** When [makeRcFields] stops in [log.Fatalf], it is in the checks of one
    store: the stores before it have passed, and the stores after it have
    not been called at all. *)
Theorem makeRcFields_loop_fatal (stores stores' : list AnyStore)
    (msg : string) :
  makeRcFields_loop manifest nodeSelector podLabels stores
  = (stores', Fatal msg) →
  ∃ (before before' : list AnyStore) (passed : list RC) (st : AnyStore)
    (s' : state_type st) (after : list AnyStore),
    stores = before ++ st :: after
    ∧ makeRcFields_loop manifest nodeSelector podLabels before
      = (before', Done passed)
    ∧ makeRcFields_on (methods st) manifest nodeSelector podLabels (state st)
      = (s', Fatal msg)
    ∧ stores' = before' ++ with_state st s' :: after.
Proof.
  revert stores'. induction stores as [|st stores IH]; intros stores'.
  - done.
  - cbn [makeRcFields_loop].
    destruct (makeRcFields_on (methods st) manifest nodeSelector podLabels
                (state st)) as [s' [fields | msg']] eqn:Hst.
    + destruct (makeRcFields_loop manifest nodeSelector podLabels stores)
        as [rest' [rcs' | msg']] eqn:Hrest; [done |].
      intros [= <- <-].
      destruct (IH rest' eq_refl)
        as (before & before' & passed & st0 & s0 & after
            & -> & Hbefore & Hst0 & ->).
      exists (st :: before), (with_state st s' :: before'), (fields :: passed),
        st0, s0, after.
      split; [done |]. split; [| done].
      cbn [makeRcFields_loop]. by rewrite Hst, Hbefore.
    + intros [= <- <-]. by exists [], [], [], st, s', stores.
Qed.

End store_loop.

Section store_loop_values.

Import rcstore orchestrator orchestrator_any.

Lemma makeRcFields_loop_done_witness :
  let stores :=
    [ {| state_type := Store; methods := model_ops; state := NewFake |};
      {| state_type := Store; methods := model_ops; state := NewFake |} ] in
  let rc :=
    {| ID := "1";
       Manifest := {| Manifest_ID := "hello"; Manifest_SHA := "0a1b2c" |};
       NodeSelector := {| Selector_String := "app=hello" |};
       PodLabels := ∅; Disabled := false; ReplicasDesired := 0 |} in
  length [rc; rc] = length stores.
Proof.
  intros stores rc.
  assert ((makeRcFields_loop
             {| Manifest_ID := "hello"; Manifest_SHA := "0a1b2c" |}
             {| Selector_String := "app=hello" |} ∅ stores).2
          = Done [rc; rc]) as Hrcs by (vm_compute; reflexivity).
  refine (proj1 (makeRcFields_loop_done
    {| Manifest_ID := "hello"; Manifest_SHA := "0a1b2c" |}
    {| Selector_String := "app=hello" |} ∅ stores
    (makeRcFields_loop
       {| Manifest_ID := "hello"; Manifest_SHA := "0a1b2c" |}
       {| Selector_String := "app=hello" |} ∅ stores).1
    [rc; rc] _)).
  rewrite <- Hrcs. apply surjective_pairing.
Defined.

Lemma makeRcFields_loop_fatal_witness :
  let accepting :=
    {| state_type := unit; methods := accepting_ops; state := () |} in
  let fake :=
    {| state_type := Store; methods := model_ops; state := NewFake |} in
  ∃ (before : list AnyStore) (st : AnyStore) (after : list AnyStore),
    [accepting; fake] = before ++ st :: after.
Proof.
  intros accepting fake.
  destruct (makeRcFields_loop_fatal
    {| Manifest_ID := "hello"; Manifest_SHA := "0a1b2c" |}
    {| Selector_String := "app=hello" |} ∅
    [accepting; fake] [accepting; fake]
    "Should have errored setting a nonexistent ID" eq_refl)
    as (before & before' & passed & st & s' & after & Hsplit & _).
  by exists before, st, after.
Defined.

End store_loop_values.

Section any_store_values.

Import rcstore orchestrator orchestrator_any.

Lemma makeRcFields_on_accepts_witness :
  let fields :=
    {| ID := "1";
       Manifest := {| Manifest_ID := "hello"; Manifest_SHA := "0a1b2c" |};
       NodeSelector := {| Selector_String := "app=hello" |};
       PodLabels := ∅; Disabled := false; ReplicasDesired := 0 |} in
  ∃ (s6 s7 : Store) (check : RC),
    store_Get model_ops s6 (ID fields) = (s7, (check, None))
    ∧ checkFieldsSame fields check = 0.
Proof.
  intros fields.
  assert ((makeRcFields_on model_ops
             {| Manifest_ID := "hello"; Manifest_SHA := "0a1b2c" |}
             {| Selector_String := "app=hello" |} ∅ NewFake).2
          = Done fields) as Hrun by (vm_compute; reflexivity).
  assert (makeRcFields_on model_ops
            {| Manifest_ID := "hello"; Manifest_SHA := "0a1b2c" |}
            {| Selector_String := "app=hello" |} ∅ NewFake
          = ((makeRcFields_on model_ops
                {| Manifest_ID := "hello"; Manifest_SHA := "0a1b2c" |}
                {| Selector_String := "app=hello" |} ∅ NewFake).1,
             Done fields)) as Hpair
    by (rewrite <- Hrun; apply surjective_pairing).
  destruct (makeRcFields_on_accepts model_ops _ _ _ _ _ _ Hpair)
    as (s1 & s2 & s3 & s4 & s5 & s6 & s7 & e1 & e2 & e3 & first & check
        & listeds & _ & _ & _ & _ & _ & _ & Hget & Hsame & _).
  by exists s6, s7, check.
Defined.

End any_store_values.

Section teardown_any.

Import rcstore orchestrator orchestrator_any.

Context {S : Type} (ops : StoreOps S).

(** [main] gets through its teardown only with a store that disables the
    record, refuses to delete it while replicas are still desired, sets the
    replicas to 0 and then deletes it; and when the first [Delete] goes
    through instead, [main] stops there, with nothing more asked of the
    store. *)
Theorem main_teardown_on_outcomes (id : string) (s : S) :
  (∀ s', main_teardown_on ops id s = (s', Done ()) →
     ∃ s1 s2 s3 e,
       store_Disable ops s id = (s1, None)
       ∧ store_Delete ops s1 id = (s2, Some e)
       ∧ store_SetDesiredReplicas ops s2 id 0 = (s3, None)
       ∧ store_Delete ops s3 id = (s', None))
  ∧ (∀ s1 s2,
       store_Disable ops s id = (s1, None) →
       store_Delete ops s1 id = (s2, None) →
       main_teardown_on ops id s
       = (s2, Fatal "Delete succeeded, should have errored!")).
Proof.
  unfold main_teardown_on, mbind, run_bind, invoke, fatal, mret, run_ret.
  split.
  - intros s' H.
    destruct (store_Disable ops s id) as [s1 [?|]] eqn:E1; [done |].
    destruct (store_Delete ops s1 id) as [s2 [e|]] eqn:E2; [| done].
    destruct (store_SetDesiredReplicas ops s2 id 0) as [s3 [?|]] eqn:E3;
      [done |].
    destruct (store_Delete ops s3 id) as [s4 [?|]] eqn:E4; [done |].
    injection H as <-. by exists s1, s2, s3, e.
  - intros s1 s2 -> ->. done.
Qed.

End teardown_any.

Section teardown_values.

Import rcstore orchestrator orchestrator_any.

Lemma main_teardown_on_outcomes_witness :
  main_teardown_on accepting_ops "rc1" ()
  = ((), Fatal "Delete succeeded, should have errored!").
Proof.
  destruct (main_teardown_on_outcomes accepting_ops "rc1" ()) as [_ H].
  apply (H () ()); reflexivity.
Defined.

End teardown_values.

(** ** The start of [makeRcFields] and the wait for the nodes *)
Section start_and_wait.

Import rcstore orchestrator orchestrator_any.

Lemma substring_0_length (n : nat) (s : string) :
  (n ≤ String.length s)%nat → String.length (String.substring 0 n s) = n.
Proof.
  revert s. induction n as [|n IH]; intros [|c s] Hn.
  - reflexivity.
  - reflexivity.
  - simpl in Hn. lia.
  - simpl in *. rewrite IH; lia.
Qed.

Lemma substring_0_prefix (n : nat) (s : string) :
  String.prefix (String.substring 0 n s) s = true.
Proof.
  revert s. induction n as [|n IH]; intros [|c s].
  - reflexivity.
  - reflexivity.
  - reflexivity.
  - simpl. destruct (ascii_dec c c); [apply IH | done].
Qed.

(** [makeRcFields] gets as far as its stores only when the manifest was
    fetched, the selector parsed and the digest computed without error and
    the digest has at least 63 bytes; the pod labels are then the two
    entries [mini-orchestrator=true] and [sha-truncated], the latter set to
    the first 63 bytes of the digest.  A shorter digest ends the run in the
    panic of the slice expression. *)
Theorem makeRcFields_start_outcomes (fromURI : pods_Manifest * option error)
    (parsed : labels_Selector * option error)
    (digest : string * option error) :
  (∀ manifest nodeSelector podLabels,
     makeRcFields_start fromURI parsed digest
     = Ready (manifest, nodeSelector, podLabels) →
     fromURI = (manifest, None) ∧ parsed = (nodeSelector, None)
     ∧ digest.2 = None
     ∧ ∃ truncated,
         podLabels !! "sha-truncated" = Some truncated
         ∧ String.length truncated = 63%nat
         ∧ String.prefix truncated digest.1 = true
         ∧ podLabels !! "mini-orchestrator" = Some "true"
         ∧ dom podLabels = {[ "sha-truncated"; "mini-orchestrator" ]})
  ∧ (makeRcFields_start fromURI parsed digest = Panic
     ↔ fromURI.2 = None ∧ parsed.2 = None ∧ digest.2 = None
       ∧ (String.length digest.1 < 63)%nat).
Proof.
  destruct fromURI as [m [e1|]], parsed as [sel [e2|]], digest as [sha [e3|]];
    cbn [makeRcFields_start fst snd];
    try (split; [done | split; [done | by intros (? & ? & ? & ?)]]).
  unfold slice_to. destruct (63 <=? String.length sha)%nat eqn:Hlen.
  - apply Nat.leb_le in Hlen. split; [| split; [done | lia]].
    intros manifest nodeSelector podLabels [= <- <- <-].
    repeat split. exists (String.substring 0 63 sha).
    split; [done |]. split; [by apply substring_0_length |].
    split; [apply substring_0_prefix |]. split; [done |].
    rewrite !dom_insert_L. set_solver.
  - apply Nat.leb_gt in Hlen. split; [done |]. split; [| done].
    intros _. repeat split; done.
Qed.

Lemma makeRcFields_start_outcomes_witness :
  makeRcFields_start
    ({| Manifest_ID := "hello"; Manifest_SHA := "0a1b2c" |}, None)
    ({| Selector_String := "app=hello" |}, None) ("0a1b2c", None)
  = Panic.
Proof.
  apply (makeRcFields_start_outcomes
           ({| Manifest_ID := "hello"; Manifest_SHA := "0a1b2c" |}, None)
           ({| Selector_String := "app=hello" |}, None) ("0a1b2c", None)).
  repeat split. cbn. lia.
Defined.

Lemma wait_for_nodes_unfold (nodes : Z) (currentNodes : list string)
    (polls : list (list string * option error)) :
  wait_for_nodes nodes currentNodes polls
  = if bool_decide (Z.of_nat (length currentNodes) ≠ nodes) then
      match polls with
      | [] => Sleeping
      | (polled, err) :: polls' =>
          if err is Some _ then Stopped "Couldn't get current nodes"
          else wait_for_nodes nodes polled polls'
      end
    else Reached currentNodes.
Proof. by destruct polls. Qed.

(** The wait ends only on a list of exactly [*nodes] nodes: the list it
    started with or one that a poll returned without error.  So it never
    ends when [*nodes] is negative, and with [--nodes 0] it ends before the
    first poll. *)
Theorem wait_for_nodes_reached (nodes : Z) (currentNodes : list string)
    (polls : list (list string * option error)) :
  (∀ reached,
     wait_for_nodes nodes currentNodes polls = Reached reached →
     Z.of_nat (length reached) = nodes
     ∧ (reached = currentNodes ∨ (reached, None) ∈ polls))
  ∧ (nodes < 0 → ∀ reached,
       wait_for_nodes nodes currentNodes polls ≠ Reached reached)
  ∧ wait_for_nodes 0 [] polls = Reached [].
Proof.
  assert (∀ reached,
     wait_for_nodes nodes currentNodes polls = Reached reached →
     Z.of_nat (length reached) = nodes
     ∧ (reached = currentNodes ∨ (reached, None) ∈ polls)) as Hreached.
  { revert currentNodes.
    induction polls as [|[polled [err|]] polls IH]; intros cur reached;
      rewrite wait_for_nodes_unfold; case_bool_decide as Hn; try done.
    - intros [= <-]. split; [done | by left].
    - intros [= <-]. split; [done | by left].
    - intros H. destruct (IH _ _ H) as [Hl [-> | Hin]].
      + split; [done |]. right. apply elem_of_cons. by left.
      + split; [done |]. right. apply elem_of_cons. by right.
    - intros [= <-]. split; [done | by left]. }
  split; [exact Hreached |]. split.
  - intros Hneg reached H. apply Hreached in H as [H _]. lia.
  - by destruct polls.
Qed.

Lemma wait_for_nodes_reached_witness :
  wait_for_nodes (-1) [] [(["a"], None); ([], None)] ≠ Reached [].
Proof.
  apply (wait_for_nodes_reached (-1) [] [(["a"], None); ([], None)]). lia.
Defined.

(** The wait ends at the first poll that returns exactly [*nodes] nodes,
    when the polls before it returned no error and another number of nodes,
    be it fewer or more. *)
Theorem wait_for_nodes_first (nodes : Z) (currentNodes reached : list string)
    (before after : list (list string * option error)) :
  Z.of_nat (length currentNodes) ≠ nodes →
  Forall (λ poll, poll.2 = None ∧ Z.of_nat (length poll.1) ≠ nodes) before →
  Z.of_nat (length reached) = nodes →
  wait_for_nodes nodes currentNodes (before ++ (reached, None) :: after)
  = Reached reached.
Proof.
  intros Hcur Hbefore Hreached. revert currentNodes Hcur.
  induction Hbefore as [|[polled err] before [Herr Hlen] _ IH];
    intros cur Hcur; cbn [app]; rewrite wait_for_nodes_unfold;
    rewrite bool_decide_eq_true_2 by done.
  - rewrite wait_for_nodes_unfold.
    by rewrite bool_decide_eq_false_2 by (intros H; by apply H).
  - cbn [fst snd] in *. subst err. by apply IH.
Qed.

Lemma wait_for_nodes_first_witness :
  wait_for_nodes 2 []
    ([(["a"], None); (["a"; "b"; "c"], None)] ++ (["a"; "b"], None) :: [])
  = Reached ["a"; "b"].
Proof.
  apply wait_for_nodes_first.
  - cbn. lia.
  - repeat constructor; cbn; lia.
  - reflexivity.
Defined.

End start_and_wait.

(** ** [Clean], element by element *)
Section clean_elements.

Lemma get_append_l (s1 s2 : string) (n : nat) :
  (n < String.length s1)%nat → String.get n (s1 +:+ s2) = String.get n s1.
Proof. intros Hn. symmetry. by apply String.append_correct1. Qed.

Lemma get_append_r (s1 s2 : string) (n : nat) :
  String.get (n + String.length s1) (s1 +:+ s2) = String.get n s2.
Proof. symmetry. apply String.append_correct2. Qed.

Lemma substring_append (p q : string) :
  String.substring 0 (String.length p) (p +:+ q) = p.
Proof.
  induction p as [|c p IH]; [by destruct q |].
  rewrite append_cons. cbn [String.length String.substring]. by rewrite IH.
Qed.

Lemma substring_0_0 (s : string) : String.substring 0 0 s = "".
Proof. by destruct s. Qed.

Lemma get_no_slash (e : string) (i : nat) :
  has_slash e = false → String.get i e ≠ Some path.slash.
Proof.
  revert i. induction e as [|c e IH]; intros i He; [done |].
  simpl in He. apply orb_false_iff in He as [Hc He].
  destruct i as [|i]; cbn [String.get].
  - intros [= ->]. by rewrite Ascii.eqb_refl in Hc.
  - by apply IH.
Qed.

(** The backward scan stops at [lo], the first index from the right that
    holds a slash or is the [dotdot] index. *)
Lemma backtrack_w_stop (b : string) (dotdot lo w : nat) :
  (lo ≤ w)%nat →
  (∀ i, (lo < i ≤ w)%nat → String.get i b ≠ Some path.slash) →
  (dotdot ≤ lo)%nat →
  lo = dotdot ∨ String.get lo b = Some path.slash →
  path.backtrack_w b dotdot w = lo.
Proof.
  intros Hlo Hno Hdd Hstop. induction w as [|w IH].
  - cbn. lia.
  - cbn [path.backtrack_w].
    destruct (decide (lo = S w)) as [-> | Hne].
    + destruct Hstop as [-> | Hs].
      * by rewrite Nat.ltb_irrefl.
      * rewrite bool_decide_eq_true_2 by done. cbn. by rewrite andb_false_r.
    + assert ((dotdot <? S w)%nat = true) as -> by (apply Nat.ltb_lt; lia).
      rewrite bool_decide_eq_false_2 by (apply Hno; lia).
      cbn [negb andb]. apply IH; [lia |]. intros i Hi. apply Hno. lia.
Qed.

Lemma join_slash_snoc (l : list string) (e : string) :
  path.join_slash (l ++ [e])
  = match l with
    | [] => e
    | _ => path.join_slash l +:+ "/" +:+ e
    end.
Proof.
  destruct l as [|x l]; [done |].
  by rewrite join_slash_app.
Qed.

Lemma join_slash_prefix_length (l1 l2 : list string) :
  (String.length (path.join_slash l1)
   ≤ String.length (path.join_slash (l1 ++ l2)))%nat.
Proof.
  destruct l1 as [|x l1]; [cbn; lia |].
  destruct l2 as [|y l2]; [by rewrite app_nil_r |].
  rewrite join_slash_app by done. rewrite length_append. lia.
Qed.

Lemma canon_up_cons (st : cstate) (e : string) (below : list string) :
  stack st = e :: below → canon st = canon (up st) ++ [e].
Proof.
  intros Hs. unfold canon, up. rewrite Hs. cbn [stack ups].
  by rewrite reverse_cons, app_assoc.
Qed.

Lemma dotdot_of_up_cons (st : cstate) (e : string) (below : list string) :
  stack st = e :: below → dotdot_of (up st) = dotdot_of st.
Proof. intros Hs. unfold dotdot_of, up. by rewrite Hs. Qed.

Lemma dotdot_of_le_buf (st : cstate) :
  (dotdot_of st ≤ String.length (buf st))%nat.
Proof. apply join_slash_prefix_length. Qed.

(** Backtracking drops the latest plain element and the slash before
    it. *)
Lemma backtrack_buf (st : cstate) (e : string) (below : list string) :
  stack st = e :: below → plain e = true →
  path.backtrack (buf st) (dotdot_of st) = buf (up st)
  ∧ (dotdot_of st < String.length (buf st))%nat.
Proof.
  intros Hs (Hsl & Hne & _)%plain_inv.
  assert (0 < String.length e)%nat as Hlen by (destruct e; [done | cbn; lia]).
  pose proof (dotdot_of_le_buf (up st)) as Hdd.
  rewrite (dotdot_of_up_cons _ _ _ Hs) in Hdd.
  unfold path.backtrack, buf in *. rewrite (canon_up_cons _ _ _ Hs).
  rewrite join_slash_snoc. destruct (canon (up st)) as [|x l] eqn:Hc.
  - cbn [path.join_slash String.length] in Hdd.
    assert (dotdot_of st = 0)%nat as -> by lia. split; [| done].
    rewrite (backtrack_w_stop _ _ 0); [apply substring_0_0 | lia | | lia | by left].
    intros i Hi. by apply get_no_slash.
  - set (p := path.join_slash (x :: l)) in *. split.
    + rewrite (backtrack_w_stop _ _ (String.length p)).
      * apply substring_append.
      * rewrite !length_append. change (String.length "/") with 1%nat. lia.
      * intros i Hi. rewrite !length_append in Hi.
        change (String.length "/") with 1%nat in Hi.
        replace i with ((i - String.length p) + String.length p)%nat by lia.
        rewrite get_append_r.
        destruct (i - String.length p)%nat as [|j] eqn:Hj; [lia |].
        rewrite append_cons. cbn [String.get]. by apply get_no_slash.
      * done.
      * right. replace (String.length p) with (0 + String.length p)%nat by lia.
        by rewrite get_append_r.
    + rewrite !length_append. change (String.length "/") with 1%nat. lia.
Qed.

End clean_elements.

Section clean_norm.

Lemma plain_iff (e : string) :
  plain e = true ↔ has_slash e = false ∧ e ≠ "" ∧ e ≠ "." ∧ e ≠ "..".
Proof.
  unfold plain. rewrite !andb_true_iff, !negb_true_iff, !bool_decide_eq_false.
  tauto.
Qed.

Lemma norm_step_plain_stack (st : cstate) (e : string) :
  has_slash e = false → plain_stack st → plain_stack (norm_step st e).
Proof.
  intros He Hst. unfold norm_step. repeat case_bool_decide; try done.
  - unfold up, plain_stack in *. destruct (stack st) as [|x below]; [done |].
    by inversion Hst.
  - unfold plain_stack. cbn [stack]. constructor; [| done].
    by apply plain_iff.
Qed.

Lemma norm_plain_stack (es : list string) (st : cstate) :
  Forall (λ e, has_slash e = false) es → plain_stack st →
  plain_stack (norm es st).
Proof.
  intros Hes. revert st. induction Hes as [|e es He _ IH]; intros st Hst;
    [done |].
  apply IH. by apply norm_step_plain_stack.
Qed.

Lemma canon_nonempty_buf (st : cstate) :
  plain_stack st → buf st = "" → canon st = [].
Proof.
  intros Hst Hb. unfold buf in Hb. destruct (canon st) as [|x l] eqn:Hc; [done |].
  exfalso. assert (x ≠ "") as Hx.
  { unfold canon in Hc. destruct (ups st) as [|n].
    - cbn [replicate app] in Hc.
      assert (x ∈ reverse (stack st)) as Hin by (rewrite Hc; by left).
      rewrite elem_of_reverse in Hin.
      unfold plain_stack in Hst. rewrite Forall_forall in Hst.
      apply Hst in Hin. by apply plain_iff in Hin as (_ & ? & _).
    - cbn [replicate app] in Hc. by injection Hc as <- _. }
  rewrite join_slash_cons in Hb. by apply append_eq_nil in Hb as [? _].
Qed.

Lemma buf_push (st : cstate) (e : string) :
  plain_stack st →
  buf {| ups := ups st; stack := e :: stack st |}
  = (if bool_decide (buf st = "") then buf st else buf st +:+ "/") +:+ e.
Proof.
  intros Hst. unfold buf at 1, canon. cbn [ups stack].
  rewrite reverse_cons, app_assoc, join_slash_snoc. fold (canon st).
  case_bool_decide as Hb.
  - rewrite (canon_nonempty_buf st Hst Hb). by rewrite Hb.
  - destruct (canon st) eqn:Hc; [by unfold buf in Hb; rewrite Hc in Hb |].
    unfold buf. rewrite Hc. by rewrite append_assoc.
Qed.

Lemma norm_step_empty (st : cstate) : norm_step st "" = st.
Proof. unfold norm_step. by rewrite bool_decide_eq_true_2. Qed.

Lemma plain_stack_init : plain_stack cstate_init.
Proof. constructor. Qed.

Lemma loop_skip_slash (f : nat) (rooted : bool) (rest out : string)
    (dotdot : nat) :
  path.clean_loop (S f) rooted ("/" +:+ rest) out dotdot
  = path.clean_loop f rooted rest out dotdot.
Proof. reflexivity. Qed.

(** A plain element is copied, whatever the [dotdot] index. *)
Lemma loop_plain (f : nat) (e tl out : string) (dotdot : nat) :
  plain e = true → path.at_sep tl = true →
  path.clean_loop (S f) false (e +:+ tl) out dotdot
  = path.clean_loop f false tl
      ((if bool_decide (out = "") then out else out +:+ "/") +:+ e) dotdot.
Proof.
  intros (He & Hne & Hd & Hdd)%plain_inv Htl.
  destruct e as [|c e]; [done |].
  pose proof He as He'. simpl in He'. apply orb_false_iff in He' as [Hc Hse].
  rewrite append_cons. cbn [path.clean_loop]. rewrite Hc.
  destruct (Ascii.eqb c path.dot && path.at_sep (e +:+ tl)) eqn:H1.
  { apply andb_true_iff in H1 as [Hcd Hsep].
    apply Ascii.eqb_eq in Hcd. apply at_sep_append in Hsep; [|done..].
    by subst. }
  destruct (Ascii.eqb c path.dot && path.dot_then_sep (e +:+ tl)) eqn:H2.
  { apply andb_true_iff in H2 as [Hcd H2]. apply Ascii.eqb_eq in Hcd.
    destruct e as [|c' e'].
    - rewrite append_nil_l in H2. destruct tl as [|c' t']; [done |].
      simpl in H2. apply andb_true_iff in H2 as [Hc' _]. simpl in Htl.
      apply Ascii.eqb_eq in Hc', Htl. rewrite Hc' in Htl. discriminate.
    - rewrite append_cons in H2. simpl in H2.
      apply andb_true_iff in H2 as [Hc' Hsep].
      apply Ascii.eqb_eq in Hc'. simpl in Hse.
      apply orb_false_iff in Hse as [_ Hse'].
      apply at_sep_append in Hsep; [|done..]. by subst. }
  rewrite <- (append_cons c e tl).
  rewrite copy_elem_plain by done.
  cbn [negb andb orb]. f_equal. f_equal.
  destruct out; [done |]. by rewrite bool_decide_eq_false_2.
Qed.

Lemma replicate_dots_snoc (n : nat) :
  replicate (S n) ".." = replicate n ".." ++ [".."].
Proof. induction n as [|n IH]; [done |]. cbn [replicate app] in *. by rewrite <- IH. Qed.

(** One element that is not empty, read from a state's buffer. *)
Lemma loop_elem (f : nat) (e tl : string) (st : cstate) :
  has_slash e = false → e ≠ "" → path.at_sep tl = true → plain_stack st →
  path.clean_loop (S f) false (e +:+ tl) (buf st) (dotdot_of st)
  = path.clean_loop f false tl (buf (norm_step st e))
      (dotdot_of (norm_step st e)).
Proof.
  intros He Hne Htl Hst. unfold norm_step.
  rewrite bool_decide_eq_false_2 by done.
  case_bool_decide as Hdot; [| case_bool_decide as Hdotdot].
  - subst e. rewrite append_cons, append_nil_l. cbn [path.clean_loop].
    change (Ascii.eqb "." path.slash) with false.
    change (Ascii.eqb "." path.dot) with true. by rewrite Htl.
  - subst e. rewrite !append_cons, append_nil_l. cbn [path.clean_loop].
    change (Ascii.eqb "." path.slash) with false.
    change (Ascii.eqb "." path.dot) with true.
    cbn [path.at_sep path.dot_then_sep path.skip_byte andb].
    change (Ascii.eqb "." path.slash) with false.
    change (Ascii.eqb "." path.dot) with true.
    rewrite Htl. cbn [andb].
    destruct (stack st) as [|x below] eqn:Hs.
    + assert (buf st = path.join_slash (replicate (ups st) "..")) as Hb
        by (unfold buf, canon; rewrite Hs, reverse_nil; by rewrite app_nil_r).
      assert (dotdot_of st = String.length (buf st)) as Hdd
        by (by rewrite Hb).
      rewrite Hdd, Nat.ltb_irrefl. cbn [negb].
      assert (path.append_byte
                (path.append_byte
                   (if (0 <? String.length (buf st))%nat
                    then path.append_byte (buf st) path.slash
                    else buf st) path.dot) path.dot
              = buf (up st)) as Hout.
      { unfold up. rewrite Hs. unfold buf at 4, canon. cbn [ups stack].
        rewrite reverse_nil, app_nil_r, replicate_dots_snoc, join_slash_snoc.
        rewrite Hb. unfold path.append_byte.
        destruct (replicate (ups st) "..") as [|y l] eqn:Hr; [done |].
        assert ((0 <? String.length (path.join_slash (y :: l)))%nat = true)
          as ->.
        { apply Nat.ltb_lt. destruct (ups st); [done |].
          injection Hr as <- _. rewrite join_slash_cons.
          rewrite length_append. cbn. lia. }
        by rewrite !append_assoc. }
      rewrite Hout. f_equal. unfold dotdot_of, buf, canon, up.
      rewrite Hs. cbn [ups stack]. by rewrite reverse_nil, app_nil_r.
    + assert (plain x = true) as Hx by (unfold plain_stack in Hst; rewrite Hs in Hst; by inversion Hst).
      destruct (backtrack_buf st x below Hs Hx) as [Hback Hlt].
      rewrite (proj2 (Nat.ltb_lt _ _) Hlt), Hback.
      by rewrite (dotdot_of_up_cons st x below Hs).
  - assert (plain e = true) as Hp by (by apply plain_iff).
    rewrite loop_plain by done. by rewrite buf_push.
Qed.

(** The loop from a state's buffer over elements, each after a slash. *)
Lemma loop_rest (es : list string) (st : cstate) (fuel : nat) :
  Forall (λ e, has_slash e = false) es → plain_stack st →
  (String.length (rest_of es) ≤ fuel)%nat →
  path.clean_loop fuel false (rest_of es) (buf st) (dotdot_of st)
  = buf (norm es st).
Proof.
  intros Hes. revert st fuel.
  induction Hes as [|e es He Hes IH]; intros st fuel Hst Hfuel.
  - by destruct fuel.
  - cbn [rest_of] in *. rewrite append_cons, append_nil_l in Hfuel.
    cbn [String.length] in Hfuel. rewrite length_append in Hfuel.
    destruct fuel as [|f]; [lia |]. rewrite loop_skip_slash.
    cbn [norm fold_left]. fold (norm es (norm_step st e)).
    destruct (decide (e = "")) as [-> | Hne].
    + rewrite append_nil_l, norm_step_empty.
      apply IH; [done |]. cbn in Hfuel. lia.
    + destruct f as [|f]; [destruct e; [done | cbn in Hfuel; lia] |].
      rewrite loop_elem by (done || apply at_sep_rest_of).
      apply IH; [by apply norm_step_plain_stack |].
      destruct e; [done | cbn in Hfuel; lia].
Qed.

Lemma render_buf (st : cstate) :
  match buf st with
  | EmptyString => "."
  | String _ _ => buf st
  end = render st.
Proof. unfold render. by destruct (buf st). Qed.

(** [Clean] on a path whose first element is not empty, which is a path
    that is not empty and does not start with a slash: the elements are
    read into the state one by one. *)
Lemma Clean_norm (e : string) (es : list string) :
  e ≠ "" → Forall (λ e, has_slash e = false) (e :: es) →
  path.Clean (path.join_slash (e :: es)) = render (norm (e :: es) cstate_init).
Proof.
  intros Hne Hes. inversion Hes as [|? ? He Hes']; subst.
  rewrite join_slash_cons.
  destruct (e +:+ rest_of es) as [|c p] eqn:Ep.
  { by apply append_eq_nil in Ep as [? _]. }
  assert (Ascii.eqb c path.slash = false) as Hc.
  { destruct e as [|c' e']; [done |]. rewrite append_cons in Ep.
    injection Ep as -> _. simpl in He. by apply orb_false_iff in He as [? _]. }
  assert (String.length (e +:+ rest_of es) = S (String.length p)) as Hlen
    by (by rewrite Ep).
  assert (path.clean_loop (S (String.length p)) false (e +:+ rest_of es) "" 0
          = buf (norm (e :: es) cstate_init)) as Hloop.
  { change (path.clean_loop (S (String.length p)) false (e +:+ rest_of es)
              (buf cstate_init) (dotdot_of cstate_init)
            = buf (norm (e :: es) cstate_init)).
    rewrite loop_elem
      by first [done | apply at_sep_rest_of | apply plain_stack_init].
    rewrite loop_rest; [done | done | |].
    - apply norm_step_plain_stack; [done | apply plain_stack_init].
    - rewrite length_append in Hlen. destruct e; [done | cbn in Hlen; lia]. }
  unfold path.Clean. rewrite Hc. cbv zeta.
  change (String.length (String c p)) with (S (String.length p)).
  rewrite <- Ep, Hloop. apply render_buf.
Qed.

End clean_norm.

Section clean_compose.

Lemma elements_nonempty (s : string) : elements s ≠ [].
Proof.
  induction s as [|c s IH]; [done |]. cbn [elements].
  destruct (Ascii.eqb c path.slash); [done |]. by destruct (elements s).
Qed.

Lemma elements_no_slash (s : string) :
  Forall (λ e, has_slash e = false) (elements s).
Proof.
  induction s as [|c s IH]; [by repeat constructor |]. cbn [elements].
  destruct (Ascii.eqb c path.slash) eqn:Hc; [by constructor |].
  destruct (elements s) as [|e es]; [by repeat constructor; cbn; rewrite Hc |].
  inversion IH; subst. constructor; [| done]. cbn. by rewrite Hc.
Qed.

Lemma join_elements (s : string) : path.join_slash (elements s) = s.
Proof.
  induction s as [|c s IH]; [done |]. cbn [elements].
  destruct (Ascii.eqb c path.slash) eqn:Hc.
  - apply Ascii.eqb_eq in Hc. subst c.
    pose proof (elements_nonempty s) as Hne.
    destruct (elements s) as [|e es] eqn:He; [done |].
    change (path.join_slash ("" :: e :: es))
      with ("" +:+ "/" +:+ path.join_slash (e :: es)).
    by rewrite IH.
  - pose proof (elements_nonempty s) as Hne.
    destruct (elements s) as [|e es] eqn:He; [done |].
    rewrite join_slash_cons in *. by rewrite append_cons, IH.
Qed.

Lemma elements_head (c : ascii) (s : string) :
  Ascii.eqb c path.slash = false →
  ∃ e es, e ≠ "" ∧ elements (String c s) = e :: es.
Proof.
  intros Hc. cbn [elements]. rewrite Hc.
  destruct (elements s) as [|e es];
    [by exists (String c ""), [] | by exists (String c e), es].
Qed.

Lemma elements_app (a b : string) :
  elements (a +:+ "/" +:+ b) = elements a ++ elements b.
Proof.
  induction a as [|c a IH]; [done |].
  rewrite append_cons. cbn [elements].
  destruct (Ascii.eqb c path.slash); rewrite IH; [done |].
  pose proof (elements_nonempty a). by destruct (elements a).
Qed.

Lemma elements_one (e : string) : has_slash e = false → elements e = [e].
Proof.
  induction e as [|c e IH]; [done |]. intros He. simpl in He.
  apply orb_false_iff in He as [Hc He]. cbn [elements]. rewrite Hc.
  by rewrite IH.
Qed.

Lemma elements_join (l : list string) :
  l ≠ [] → Forall (λ e, has_slash e = false) l →
  elements (path.join_slash l) = l.
Proof.
  intros Hne Hl. induction Hl as [|e l He Hl IH]; [done |].
  destruct l as [|e' l']; [by apply elements_one |].
  change (path.join_slash (e :: e' :: l'))
    with (e +:+ "/" +:+ path.join_slash (e' :: l')).
  rewrite elements_app, elements_one, IH by done. done.
Qed.

(** [Clean] of a path that is not empty and does not start with a slash,
    by its elements. *)
Lemma Clean_elements (c : ascii) (s : string) :
  Ascii.eqb c path.slash = false →
  path.Clean (String c s) = render (norm (elements (String c s)) cstate_init).
Proof.
  intros Hc. destruct (elements_head c s Hc) as (e & es & Hne & He).
  rewrite <- (join_elements (String c s)) at 1. rewrite He.
  apply Clean_norm; [done |]. rewrite <- He. apply elements_no_slash.
Qed.

Lemma norm_app (es1 es2 : list string) (st : cstate) :
  norm (es1 ++ es2) st = norm es2 (norm es1 st).
Proof. apply fold_left_app. Qed.

Lemma cstate_eta (st : cstate) : {| ups := ups st; stack := stack st |} = st.
Proof. by destruct st. Qed.

Lemma iter_up_init (k : nat) :
  Nat.iter k up cstate_init = {| ups := k; stack := [] |}.
Proof. induction k as [|k IH]; [done |]. by rewrite Nat.iter_succ, IH. Qed.

Lemma act_init (c : cstate) : act c cstate_init = c.
Proof.
  unfold act. rewrite iter_up_init. cbn [ups stack].
  rewrite app_nil_r. apply cstate_eta.
Qed.

Lemma iter_up_comm (k : nat) (st : cstate) :
  Nat.iter k up (up st) = up (Nat.iter k up st).
Proof. induction k as [|k IH]; [done |]. by rewrite !Nat.iter_succ, IH. Qed.

Lemma up_act (c st : cstate) : up (act c st) = act (up c) st.
Proof.
  unfold act. destruct c as [k [|x below]]; cbn [ups stack up app].
  - unfold up at 1. cbn [ups stack app]. rewrite Nat.iter_succ.
    set (st' := Nat.iter k up st). unfold up. by destruct (stack st').
  - done.
Qed.

Lemma norm_step_act (c st : cstate) (e : string) :
  norm_step (act c st) e = act (norm_step c e) st.
Proof.
  unfold norm_step. repeat case_bool_decide; try done. apply up_act.
Qed.

(** Reading elements into any state is the action, on that state, of what
    they give from the start. *)
Lemma norm_act (es : list string) (st : cstate) :
  norm es st = act (norm es cstate_init) st.
Proof.
  induction es as [|e es IH] using rev_ind.
  - cbn. unfold act. cbn. by rewrite cstate_eta.
  - rewrite !norm_app. cbn [norm fold_left]. by rewrite IH, norm_step_act.
Qed.

Lemma norm_dots (k : nat) (st : cstate) :
  norm (replicate k "..") st = Nat.iter k up st.
Proof.
  revert st. induction k as [|k IH]; intros st; [done |].
  cbn [replicate norm fold_left]. fold (norm (replicate k "..") (norm_step st "..")).
  rewrite IH. change (norm_step st "..") with (up st).
  by rewrite Nat.iter_succ, iter_up_comm.
Qed.

Lemma norm_plain (stk : list string) (st : cstate) :
  Forall (λ e, plain e = true) stk →
  norm (reverse stk) st = {| ups := ups st; stack := stk ++ stack st |}.
Proof.
  induction 1 as [|x stk Hx _ IH].
  - cbn. by rewrite cstate_eta.
  - rewrite reverse_cons, norm_app, IH. cbn [norm fold_left].
    apply plain_iff in Hx as (_ & ? & ? & ?).
    unfold norm_step. by rewrite !bool_decide_eq_false_2.
Qed.

(** The elements of a result, read again, act as the state they came
    from. *)
Lemma norm_canon (c st : cstate) :
  plain_stack c → norm (canon c) st = act c st.
Proof.
  intros Hc. unfold canon. rewrite norm_app, norm_dots, norm_plain by done.
  done.
Qed.

End clean_compose.

Section clean_theorems.

Lemma unrooted_app (a b : string) : unrooted a = true → unrooted (a +:+ b) = true.
Proof. destruct a as [|c a]; [done |]. by rewrite append_cons. Qed.

Lemma Clean_unrooted (s : string) :
  unrooted s = true →
  path.Clean s = render (norm (elements s) cstate_init).
Proof.
  destruct s as [|c s]; [done |]. cbn [unrooted]. intros Hc.
  apply negb_true_iff in Hc. by apply Clean_elements.
Qed.

Lemma norm_elements_plain (s : string) (st : cstate) :
  plain_stack st → plain_stack (norm (elements s) st).
Proof. apply norm_plain_stack, elements_no_slash. Qed.

Lemma canon_no_slash (c : cstate) :
  plain_stack c → Forall (λ e, has_slash e = false) (canon c).
Proof.
  intros Hc. unfold canon. apply Forall_app. split.
  - apply Forall_replicate. done.
  - apply Forall_reverse. eapply Forall_impl; [exact Hc |].
    intros e He. by apply plain_iff in He as (? & _).
Qed.

Lemma canon_head_unrooted (c : cstate) (x : string) (l : list string) :
  plain_stack c → canon c = x :: l → unrooted x = true.
Proof.
  intros Hc Hx.
  assert (x = ".." ∨ plain x = true) as [-> | Hp]; [| done |].
  - unfold canon in Hx. destruct (ups c) as [|k].
    + right. cbn [replicate app] in Hx.
      assert (x ∈ reverse (stack c)) as Hin by (rewrite Hx; by left).
      rewrite elem_of_reverse in Hin.
      unfold plain_stack in Hc. rewrite Forall_forall in Hc. by apply Hc.
    + left. cbn [replicate app] in Hx. by injection Hx as <- _.
  - apply plain_iff in Hp as (Hs & Hne & _). destruct x as [|ch x]; [done |].
    simpl in Hs. apply orb_false_iff in Hs as [Hch _]. cbn [unrooted].
    by rewrite Hch.
Qed.

Lemma render_unrooted (c : cstate) :
  plain_stack c → unrooted (render c) = true.
Proof.
  intros Hc. unfold render, buf. destruct (canon c) as [|x l] eqn:Hx; [done |].
  pose proof (canon_head_unrooted c x l Hc Hx) as Hu.
  rewrite join_slash_cons.
  assert (unrooted (x +:+ rest_of l) = true) as Hu' by (by apply unrooted_app).
  by destruct (x +:+ rest_of l).
Qed.

Lemma canon_nil (c : cstate) : canon c = [] → c = cstate_init.
Proof.
  unfold canon. intros [Hr Hs]%app_eq_nil. destruct c as [k stk].
  cbn [ups stack] in *. destruct k; [| done].
  apply (f_equal reverse) in Hs. rewrite reverse_involutive in Hs.
  by subst stk.
Qed.

Lemma act_init_l (st : cstate) : act cstate_init st = st.
Proof. unfold act. cbn. apply cstate_eta. Qed.

(** Reading the elements of a result again, from any state. *)
Lemma norm_elements_render (c st : cstate) :
  plain_stack c → norm (elements (render c)) st = act c st.
Proof.
  intros Hc. unfold render, buf. destruct (canon c) as [|x l] eqn:Hx.
  - apply canon_nil in Hx. subst c. cbn. by rewrite act_init_l.
  - pose proof (canon_head_unrooted c x l Hc Hx) as Hu.
    assert (path.join_slash (x :: l) ≠ "") as Hne.
    { rewrite join_slash_cons. intros [-> _]%append_eq_nil. done. }
    destruct (path.join_slash (x :: l)) as [|ch p] eqn:Hj; [done |].
    rewrite <- Hj, elements_join; [| done | rewrite <- Hx; by apply canon_no_slash].
    rewrite <- Hx. by apply norm_canon.
Qed.

(** [Clean] changes nothing in what it has cleaned. *)
Lemma Clean_idempotent (a : string) :
  unrooted a = true → path.Clean (path.Clean a) = path.Clean a.
Proof.
  intros Ha. rewrite (Clean_unrooted a Ha).
  assert (plain_stack (norm (elements a) cstate_init)) as Hp
    by apply norm_elements_plain, plain_stack_init.
  rewrite Clean_unrooted by (by apply render_unrooted).
  by rewrite norm_elements_render, act_init.
Qed.

(** Cleaning the front of a path first makes no difference. *)
Lemma Clean_join_Clean_l (a b : string) :
  unrooted a = true →
  path.Clean (path.Clean a +:+ "/" +:+ b) = path.Clean (a +:+ "/" +:+ b).
Proof.
  intros Ha.
  assert (plain_stack (norm (elements a) cstate_init)) as Hp
    by apply norm_elements_plain, plain_stack_init.
  rewrite (Clean_unrooted (a +:+ _)) by (by apply unrooted_app).
  rewrite (Clean_unrooted a Ha).
  rewrite Clean_unrooted by (by apply unrooted_app, render_unrooted).
  rewrite !elements_app, !norm_app.
  by rewrite norm_elements_render, act_init.
Qed.

(** Cleaning the back of a path first makes no difference, when the back
    does not start with a slash. *)
Lemma Clean_join_Clean_r (a b : string) :
  unrooted a = true → unrooted b = true →
  path.Clean (a +:+ "/" +:+ path.Clean b) = path.Clean (a +:+ "/" +:+ b).
Proof.
  intros Ha Hb.
  assert (plain_stack (norm (elements b) cstate_init)) as Hp
    by apply norm_elements_plain, plain_stack_init.
  rewrite !(Clean_unrooted (a +:+ _)) by (by apply unrooted_app).
  rewrite (Clean_unrooted b Hb).
  rewrite !elements_app, !norm_app.
  rewrite norm_elements_render by done.
  by rewrite <- norm_act.
Qed.

Lemma Clean_is_unrooted (a : string) :
  unrooted a = true → unrooted (path.Clean a) = true.
Proof.
  intros Ha. rewrite (Clean_unrooted a Ha).
  apply render_unrooted, norm_elements_plain, plain_stack_init.
Qed.

End clean_theorems.

Example Clean_by_elements :
  render (norm (elements "abc/../../././../def") cstate_init) = "../../def".
Proof. reflexivity. Qed.

(** ** Keys are clean paths *)
Section clean_keys.

Import kp.

Lemma unrooted_nonempty (s : string) : unrooted s = true → s ≠ "".
Proof. by destruct s. Qed.

(** The node name that [nodePath] uses. *)
Lemma nodePath_Clean (podPrefix nodeName np : string) :
  unrooted podPrefix = true →
  nodePath podPrefix nodeName = (np, None) →
  np = path.Clean (podPrefix +:+ "/"
                   +:+ (if bool_decide (podPrefix = HOOK_TREE) then ""
                        else nodeName)).
Proof.
  intros Ht. pose proof (unrooted_nonempty _ Ht) as Hne.
  unfold nodePath. destruct (decide (podPrefix = HOOK_TREE)) as [Hh | Hh].
  - rewrite !bool_decide_eq_true_2 by done.
    intros Heq. apply (f_equal fst) in Heq. cbn [fst] in Heq.
    rewrite <- Heq. by apply Join_two.
  - rewrite !(bool_decide_eq_false_2 (podPrefix = HOOK_TREE)) by done.
    case_bool_decide; [done |]. intros Heq.
    apply (f_equal fst) in Heq. cbn [fst] in Heq.
    rewrite <- Heq. by apply Join_two.
Qed.

Lemma nodePath_is_unrooted (podPrefix nodeName np : string) :
  unrooted podPrefix = true →
  nodePath podPrefix nodeName = (np, None) → unrooted np = true.
Proof.
  intros Ht Hnp. rewrite (nodePath_Clean _ _ _ Ht Hnp).
  by apply Clean_is_unrooted, unrooted_app.
Qed.

Lemma podPath_Clean (podPrefix nodeName podId key : string) :
  unrooted podPrefix = true →
  podPath podPrefix nodeName podId = (key, None) →
  ∃ np, nodePath podPrefix nodeName = (np, None)
        ∧ key = path.Clean (np +:+ "/" +:+ podId).
Proof.
  intros Ht. unfold podPath.
  destruct (nodePath podPrefix nodeName) as [np [err|]] eqn:Hnp; [done |].
  case_bool_decide; [done |]. intros Heq.
  apply (f_equal fst) in Heq. cbn [fst] in Heq. exists np. split; [done |].
  rewrite <- Heq. apply Join_two. by eapply nodePath_nonempty.
Qed.

Lemma podPath_is_unrooted (podPrefix nodeName podId key : string) :
  unrooted podPrefix = true →
  podPath podPrefix nodeName podId = (key, None) → unrooted key = true.
Proof.
  intros Ht Hp. destruct (podPath_Clean _ _ _ _ Ht Hp) as (np & Hnp & ->).
  apply Clean_is_unrooted, unrooted_app. by eapply nodePath_is_unrooted.
Qed.

Lemma PodLockPath_Clean (podPrefix nodeName podId key : string) :
  PodLockPath podPrefix nodeName podId = (key, None) →
  ∃ p, podPath podPrefix nodeName podId = (p, None)
       ∧ key = path.Clean (LOCK_TREE +:+ "/" +:+ p).
Proof.
  unfold PodLockPath.
  destruct (podPath podPrefix nodeName podId) as [p [err|]] eqn:Hp; [done |].
  intros Heq. apply (f_equal fst) in Heq. cbn [fst] in Heq.
  exists p. split; [done |]. rewrite <- Heq. by apply Join_two.
Qed.

(** Every key that the three functions return is a clean path: [Clean]
    leaves it as it is.  This holds for every tree whose name is not empty
    and does not start with a slash, as for the three trees. *)
Theorem keys_are_clean (podPrefix nodeName podId key : string) :
  unrooted podPrefix = true →
  nodePath podPrefix nodeName = (key, None)
  ∨ podPath podPrefix nodeName podId = (key, None)
  ∨ PodLockPath podPrefix nodeName podId = (key, None) →
  path.Clean key = key.
Proof.
  intros Ht [Hn | [Hp | Hl]].
  - rewrite (nodePath_Clean _ _ _ Ht Hn).
    by apply Clean_idempotent, unrooted_app.
  - destruct (podPath_Clean _ _ _ _ Ht Hp) as (np & Hnp & ->).
    apply Clean_idempotent, unrooted_app. by eapply nodePath_is_unrooted.
  - destruct (PodLockPath_Clean _ _ _ _ Hl) as (p & Hp & ->).
    by apply Clean_idempotent, unrooted_app.
Qed.

Lemma keys_are_clean_witness :
  path.Clean "lock/intent/web01" = "lock/intent/web01".
Proof.
  apply (keys_are_clean INTENT_TREE "a/../web01/." "../web01//"
           "lock/intent/web01"); [reflexivity |].
  right. right. reflexivity.
Defined.

(** The keys are the cleaned form of the whole path at once: cleaning the
    node path first and the pod path next, as the code does, gives what
    cleaning [lock/tree/node/pod] gives.  On the hooks tree the node name
    is left out. *)
Theorem keys_clean_whole_path (podPrefix nodeName podId key : string) :
  unrooted podPrefix = true →
  (podPath podPrefix nodeName podId = (key, None) →
   key = path.Clean
           (podPrefix +:+ "/"
            +:+ (if bool_decide (podPrefix = HOOK_TREE) then podId
                 else nodeName +:+ "/" +:+ podId)))
  ∧ (PodLockPath podPrefix nodeName podId = (key, None) →
     key = path.Clean
             (LOCK_TREE +:+ "/" +:+ podPrefix +:+ "/"
              +:+ (if bool_decide (podPrefix = HOOK_TREE) then podId
                   else nodeName +:+ "/" +:+ podId))).
Proof.
  intros Ht.
  assert (∀ key, podPath podPrefix nodeName podId = (key, None) →
     key = path.Clean
           (podPrefix +:+ "/"
            +:+ (if bool_decide (podPrefix = HOOK_TREE) then podId
                 else nodeName +:+ "/" +:+ podId))) as Hpod.
  { intros k Hp. destruct (podPath_Clean _ _ _ _ Ht Hp) as (np & Hnp & ->).
    case_bool_decide as Hh.
    - subst podPrefix. rewrite nodePath_hooks in Hnp. by injection Hnp as <-.
    - rewrite (nodePath_Clean _ _ _ Ht Hnp).
      rewrite bool_decide_eq_false_2 by done.
      rewrite Clean_join_Clean_l by (by apply unrooted_app).
      by rewrite !append_assoc. }
  split; [apply Hpod |].
  intros Hl. destruct (PodLockPath_Clean _ _ _ _ Hl) as (p & Hp & ->).
  rewrite (Hpod p Hp) at 1.
  rewrite Clean_join_Clean_r; [done | done |]. by apply unrooted_app.
Qed.

Lemma keys_clean_whole_path_witness :
  PodLockPath REALITY_TREE "dc/./web01" "x/../mypod" =
    (path.Clean "lock/reality/dc/./web01/x/../mypod", None).
Proof.
  destruct (keys_clean_whole_path REALITY_TREE "dc/./web01" "x/../mypod"
              "lock/reality/dc/web01/mypod" eq_refl) as [_ H].
  specialize (H eq_refl).
  change (PodLockPath REALITY_TREE "dc/./web01" "x/../mypod")
    with ("lock/reality/dc/web01/mypod", @None error).
  apply (f_equal (λ k, (k, @None error))). exact H.
Defined.

End clean_keys.

Section leaving_the_node.

Import kp.

Lemma norm_step_push (st : cstate) (e : string) :
  plain e = true →
  norm_step st e = {| ups := ups st; stack := e :: stack st |}.
Proof.
  intros (_ & ? & ? & ?)%plain_iff. unfold norm_step.
  by rewrite !bool_decide_eq_false_2.
Qed.

Lemma render_nonempty (st : cstate) :
  plain_stack st → canon st ≠ [] → render st = buf st.
Proof.
  intros Hst Hc. unfold render. destruct (buf st) eqn:Hb; [| done].
  by apply canon_nonempty_buf in Hb.
Qed.

(** A [..] at the front of the pod id takes the key out of the node's
    subtree: for plain names, node [n] with pod id [../m/p] has the key, and
    the lock key, of node [m] with pod id [p]. *)
Theorem dotdot_pod_id_leaves_node (podPrefix n m p : string) :
  podPrefix = INTENT_TREE ∨ podPrefix = REALITY_TREE →
  plain n = true → plain m = true → plain p = true →
  podPath podPrefix n (".." +:+ "/" +:+ m +:+ "/" +:+ p)
  = podPath podPrefix m p
  ∧ PodLockPath podPrefix n (".." +:+ "/" +:+ m +:+ "/" +:+ p)
    = PodLockPath podPrefix m p.
Proof.
  intros Ht Hn Hm Hp.
  assert (podPath podPrefix n (".." +:+ "/" +:+ m +:+ "/" +:+ p)
          = podPath podPrefix m p) as E;
    [| split; [done | unfold PodLockPath; by rewrite E]].
  assert (plain podPrefix = true) as Htp by (by destruct Ht as [-> | ->]).
  assert (podPrefix ≠ HOOK_TREE) as Hh by (by destruct Ht as [-> | ->]).
  rewrite (podPath_form podPrefix m p) by tauto.
  rewrite bool_decide_eq_false_2 by done.
  pose proof (nodePath_plain podPrefix n Ht (plain_path_elem _ Hn)) as Hnp.
  rewrite (podPath_ok _ _ _ _ Hnp) by done. f_equal.
  rewrite !append_assoc.
  change (path.Clean (path.join_slash [podPrefix; n; ".."; m; p])
          = path.join_slash [podPrefix; m; p]).
  rewrite Clean_norm.
  - cbn [norm fold_left]. rewrite (norm_step_push _ podPrefix) by done.
    rewrite (norm_step_push _ n) by done.
    change (norm_step ?st "..") with (up st). cbn [up stack ups].
    rewrite (norm_step_push _ m), (norm_step_push _ p) by done.
    cbn [ups stack]. rewrite render_nonempty; [done | by repeat constructor | done].
  - by apply plain_iff in Htp as (_ & ? & _).
  - repeat constructor; try by apply plain_no_slash.
Qed.

Lemma dotdot_pod_id_leaves_node_witness :
  PodLockPath INTENT_TREE "web01" "../web02/mypod"
  = PodLockPath INTENT_TREE "web02" "mypod".
Proof.
  apply (dotdot_pod_id_leaves_node INTENT_TREE "web01" "web02" "mypod");
    try reflexivity. by left.
Defined.

End leaving_the_node.
